(** * IPL search engine: lexicon, forward index, inverted index in barrels

    A shallow embedding of the indexing pipeline
    ([lexicon_builder.py], [forward_index_builder.py],
    [inverted_index_builder.py], [barrel_manager.py]) and the proofs of
    its specified properties.

    Conventions of the embedding.
    - Python [int] is [Z]; [//] is [Z.div] (both round towards minus
      infinity), and division by zero raises.
    - Python [str] is [string]; [sorted] on strings compares code points,
      which for the UTF-8 bytes of a [string] is the byte-wise
      lexicographic order [String.compare].
    - A Python [set] is a [gset]; a [dict] that the code only reads and
      writes by key is a [gmap]; a [dict] that the code iterates over is an
      insertion-ordered association list ([dict] below), since iteration
      order decides which barrel is written first.
    - The barrel directory is a finite map from barrel ids to files; the
      path [barrel_<id>.pkl] is injective in the id. *)

From Stdlib Require Import ZArith String Ascii OrderedTypeEx.
From stdpp Require Import base list strings gmap sorting.

Local Open Scope Z_scope.

(** ** Insertion-ordered dictionaries *)

Module PyDict.

Definition dict (K V : Type) : Type := list (K * V).

Section ops.
Context {K V : Type} `{EqDecision K}.

(** [d.get(k)]: the value bound to [k], if any. *)
Fixpoint dict_get (k : K) (d : dict K V) : option V :=
  match d with
  | [] => None
  | (k', v) :: d' => if decide (k = k') then Some v else dict_get k d'
  end.

(** [d[k] = v]: an existing key keeps its position, a new key goes
    last. *)
Fixpoint dict_set (k : K) (v : V) (d : dict K V) : dict K V :=
  match d with
  | [] => [(k, v)]
  | (k', v') :: d' =>
      if decide (k = k') then (k, v) :: d' else (k', v') :: dict_set k v d'
  end.

(** [f(d[k])] on a [defaultdict] whose factory yields [dflt]: a missing
    key is first created with [dflt], then the value is updated in
    place. *)
Definition dict_upd (k : K) (f : V → V) (dflt : V) (d : dict K V) : dict K V :=
  match dict_get k d with
  | Some v => dict_set k (f v) d
  | None => dict_set k (f dflt) d
  end.

Definition keys (d : dict K V) : list K := d.*1.

(** What Python guarantees of every dict: keys are pairwise distinct. *)
Definition dict_wf (d : dict K V) : Prop := NoDup (keys d).
End ops.

End PyDict.
Import PyDict.

(** ** Order on strings used by [sorted] *)

Definition str_le (a b : string) : Prop := String.leb a b = true.

#[global] Instance str_le_dec : RelDecision str_le.
Proof. intros a b. unfold str_le. apply _. Defined.

(** ** Documents *)

(** A processed document, [{'doc_id': int, 'tokens': [str, ...]}]. The
    builders read [tokens] with [doc.get('tokens', [])], so the field may
    be missing. *)
Record Document := {
  doc_id : Z;
  tokens : option (list string)
}.

Definition get_tokens (doc : Document) : list string := default [] (tokens doc).

(** ** lexicon_builder.py *)

Module LexiconBuilder.

Record t := {
  lexicon : gmap string Z;
  next_word_id : Z
}.

(** [__init__] *)
Definition init : t := {| lexicon := ∅; next_word_id := 0 |}.

(** The first loop of [build_from_documents]:
    [unique_words.update(tokens)] for every document. *)
Definition collect_unique_words (documents : list Document) : gset string :=
  foldl (λ unique_words doc, unique_words ∪ list_to_set (get_tokens doc))
        ∅ documents.

(** [sorted(unique_words)] *)
Definition sorted (unique_words : gset string) : list string :=
  merge_sort str_le (elements unique_words).

(** One iteration of the assignment loop:
    [self.lexicon[word] = self.next_word_id; self.next_word_id += 1]. *)
Definition assign (self : t) (word : string) : t :=
  {| lexicon := <[word := next_word_id self]> (lexicon self);
     next_word_id := next_word_id self + 1 |}.

(** [build_from_documents]: the builder after the call and the returned
    mapping, which is the builder's own [self.lexicon]. *)
Definition build_from_documents (self : t) (documents : list Document)
  : t * gmap string Z :=
  let unique_words := collect_unique_words documents in
  let sorted_words := sorted unique_words in
  let self' := foldl assign self sorted_words in
  (self', lexicon self').

(** [get_word_id] *)
Definition get_word_id (self : t) (word : string) : option Z :=
  lexicon self !! word.

End LexiconBuilder.

(** ** forward_index_builder.py *)

Module ForwardIndexBuilder.

Record t := {
  lexicon : gmap string Z;
  forward_index : dict Z (list Z)
}.

(** [__init__(lexicon)] *)
Definition init (lexicon : gmap string Z) : t :=
  {| lexicon := lexicon; forward_index := [] |}.

(** The inner loop: [word_id = self.lexicon.get(token)], appended when it
    [is not None]. *)
Definition convert_token (lexicon : gmap string Z) (word_ids : list Z)
    (token : string) : list Z :=
  match lexicon !! token with
  | Some word_id => word_ids ++ [word_id]
  | None => word_ids
  end.

Definition convert_tokens (lexicon : gmap string Z) (tokens : list string)
  : list Z :=
  foldl (convert_token lexicon) [] tokens.

(** One iteration of the outer loop:
    [self.forward_index[doc_id] = word_ids]. *)
Definition add_document (self : t) (doc : Document) : t :=
  {| lexicon := lexicon self;
     forward_index :=
       dict_set (doc_id doc)
                (convert_tokens (lexicon self) (get_tokens doc))
                (forward_index self) |}.

(** [build_from_documents]: the builder after the call and the returned
    [self.forward_index]. *)
Definition build_from_documents (self : t) (documents : list Document)
  : t * dict Z (list Z) :=
  let self' := foldl add_document self documents in
  (self', forward_index self').

(** [get_document_words]: [self.forward_index.get(doc_id, [])]. *)
Definition get_document_words (self : t) (doc_id : Z) : list Z :=
  default [] (dict_get doc_id (forward_index self)).

End ForwardIndexBuilder.

(** ** State and exceptions *)

Inductive PyExn :=
  | ZeroDivisionError
  | FileNotFoundError
  | UnpicklingError
  | OSError.

Inductive Res (A : Type) :=
  | Ok (a : A)
  | Raise (e : PyExn).
Arguments Ok {A} a.
Arguments Raise {A} e.

(** A barrel file either unpickles to a posting map or does not unpickle. *)
Inductive BarrelFile :=
  | Pickled (data : gmap Z (list Z))
  | Corrupt.

(** How writing a barrel file can fail: [open(path, 'wb')] raises and the
    file is untouched, or [open] has truncated the file and [pickle.dump]
    raises, leaving a file that does not unpickle. *)
Inductive WriteFault :=
  | OpenFails
  | DumpFails.

(** A [BarrelManager] together with its output directory.
    [write_faults] is the environment: the barrels whose file cannot be
    written at present. *)
Record State := {
  barrel_size : Z;
  barrels_buffer : dict Z (dict Z (list Z));
  files : gmap Z BarrelFile;
  write_faults : gmap Z WriteFault
}.

Definition set_buffer (buf : dict Z (dict Z (list Z))) (s : State) : State :=
  {| barrel_size := barrel_size s; barrels_buffer := buf;
     files := files s; write_faults := write_faults s |}.

Definition set_files (fs : gmap Z BarrelFile) (s : State) : State :=
  {| barrel_size := barrel_size s; barrels_buffer := barrels_buffer s;
     files := fs; write_faults := write_faults s |}.

Definition set_faults (wf : gmap Z WriteFault) (s : State) : State :=
  {| barrel_size := barrel_size s; barrels_buffer := barrels_buffer s;
     files := files s; write_faults := wf |}.

(** Computations that read and write the state and may raise; the state
    reached when an exception is raised is kept. *)
Definition M (A : Type) : Type := State → Res A * State.

Definition ret {A} (a : A) : M A := λ s, (Ok a, s).

Definition bind {A B} (m : M A) (k : A → M B) : M B :=
  λ s, match m s with
       | (Ok a, s') => k a s'
       | (Raise e, s') => (Raise e, s')
       end.

Definition raise {A} (e : PyExn) : M A := λ s, (Raise e, s).

(** [try: m except Exception as e: h e] *)
Definition try_except {A} (m : M A) (h : PyExn → M A) : M A :=
  λ s, match m s with
       | (Ok a, s') => (Ok a, s')
       | (Raise e, s') => h e s'
       end.

Definition gets {A} (f : State → A) : M A := λ s, (Ok (f s), s).
Definition modify (f : State → State) : M unit := λ s, (Ok tt, f s).

#[global] Instance M_ret : MRet M := @ret.
#[global] Instance M_bind : MBind M := λ A B k m, bind m k.

(** [for x in l: body x] *)
Fixpoint for_each {A} (body : A → M unit) (l : list A) : M unit :=
  match l with
  | [] => mret tt
  | x :: l' => body x;; for_each body l'
  end.

(** ** barrel_manager.py *)

Module BarrelManager.

(** [__init__(output_dir, barrel_size)] on a directory holding [fs]. *)
Definition init (barrel_size : Z) (fs : gmap Z BarrelFile)
    (wf : gmap Z WriteFault) : State :=
  {| barrel_size := barrel_size; barrels_buffer := [];
     files := fs; write_faults := wf |}.

(** [get_barrel_id]: [word_id // self.barrel_size]. *)
Definition get_barrel_id (word_id : Z) : M Z :=
  size ← gets barrel_size;
  if decide (size = 0) then raise ZeroDivisionError
  else mret (word_id `div` size).

(** [add_to_barrel]:
    [self.barrels_buffer[barrel_id][word_id].append(doc_id)]. *)
Definition add_to_barrel (word_id doc_id : Z) : M unit :=
  barrel_id ← get_barrel_id word_id;
  modify (λ s,
    set_buffer
      (dict_upd barrel_id
         (dict_upd word_id (λ doc_ids, doc_ids ++ [doc_id]) [])
         [] (barrels_buffer s)) s).

(** [list(set(doc_ids))]. Python leaves the order of the result open;
    only its members and the absence of duplicates are used below. *)
Definition list_set (doc_ids : list Z) : list Z := remove_dups doc_ids.

(** [os.path.exists(barrel_path)] *)
Definition path_exists (barrel_id : Z) : M bool :=
  fs ← gets files; mret (bool_decide (is_Some (fs !! barrel_id))).

(** [with open(barrel_path, 'rb') as f: pickle.load(f)] *)
Definition open_and_load (barrel_id : Z) : M (gmap Z (list Z)) :=
  fs ← gets files;
  match fs !! barrel_id with
  | None => raise FileNotFoundError
  | Some Corrupt => raise UnpicklingError
  | Some (Pickled data) => mret data
  end.

(** [with open(barrel_path, 'wb') as f: pickle.dump(current_data, f)] *)
Definition open_and_dump (barrel_id : Z) (current_data : gmap Z (list Z))
  : M unit :=
  wf ← gets write_faults;
  match wf !! barrel_id with
  | Some OpenFails => raise OSError
  | Some DumpFails =>
      modify (λ s, set_files (<[barrel_id := Corrupt]> (files s)) s);;
      raise OSError
  | None =>
      modify (λ s, set_files (<[barrel_id := Pickled current_data]> (files s)) s)
  end.

(** One iteration of the merge loop of [flush_barrels]. *)
Definition merge_word (current_data : gmap Z (list Z))
    (item : Z * list Z) : gmap Z (list Z) :=
  let '(word_id, doc_ids) := item in
  match current_data !! word_id with
  | Some old => <[word_id := list_set (old ++ doc_ids)]> current_data
  | None => <[word_id := list_set doc_ids]> current_data
  end.

(** One iteration of the barrel loop of [flush_barrels]. *)
Definition flush_barrel (item : Z * dict Z (list Z)) : M unit :=
  let '(barrel_id, new_data) := item in
  ex ← path_exists barrel_id;
  current_data ←
    (if ex : bool
     then try_except (open_and_load barrel_id) (λ _, mret ∅)
     else mret (∅ : gmap Z (list Z)));
  open_and_dump barrel_id (foldl merge_word current_data new_data).

(** [flush_barrels] *)
Definition flush_barrels : M unit :=
  buffer ← gets barrels_buffer;
  for_each flush_barrel buffer;;
  modify (set_buffer []).

(** [load_barrel] *)
Definition load_barrel (barrel_id : Z) : M (gmap Z (list Z)) :=
  ex ← path_exists barrel_id;
  if negb ex then mret (∅ : gmap Z (list Z))
  else try_except (open_and_load barrel_id) (λ _, mret ∅).

(** [get_documents_for_word]: [barrel_data.get(word_id, [])]. *)
Definition get_documents_for_word (word_id : Z) : M (list Z) :=
  barrel_id ← get_barrel_id word_id;
  barrel_data ← load_barrel barrel_id;
  mret (default [] (barrel_data !! word_id)).

End BarrelManager.

(** ** inverted_index_builder.py *)

Module InvertedIndexBuilder.

(** The body of the loop over [forward_index.items()]. *)
Definition invert_document (item : Z * list Z) : M unit :=
  let '(doc_id, word_ids) := item in
  for_each (λ word_id, BarrelManager.add_to_barrel word_id doc_id) word_ids.

(** [build_from_forward_index] *)
Definition build_from_forward_index (forward_index : dict Z (list Z))
  : M unit :=
  for_each invert_document forward_index;;
  BarrelManager.flush_barrels.

End InvertedIndexBuilder.

(** ** main.py *)

(** [build_indices] after document processing, with the barrel size and
    the contents of the barrel directory made explicit: the lexicon, the
    forward index, and the outcome of the inverted-index build. *)
Definition build_indices (documents : list Document) (barrel_size : Z)
    (fs : gmap Z BarrelFile) (wf : gmap Z WriteFault)
  : gmap string Z * dict Z (list Z) * (Res unit * State) :=
  let lexicon :=
    (LexiconBuilder.build_from_documents LexiconBuilder.init documents).2 in
  let forward_index :=
    (ForwardIndexBuilder.build_from_documents
       (ForwardIndexBuilder.init lexicon) documents).2 in
  let barrel_mgr := BarrelManager.init barrel_size fs wf in
  (lexicon, forward_index,
   InvertedIndexBuilder.build_from_forward_index forward_index barrel_mgr).

(** ** Concrete inputs, and views of the state used in the statements *)

Definition docs_example : list Document :=
  [ {| doc_id := 0; tokens := Some ["six"; "four"]%string |};
    {| doc_id := 1; tokens := Some ["six"; "wicket"]%string |};
    {| doc_id := 2; tokens := Some ["four"]%string |} ].

Definition str_lt (a b : string) : Prop := String.ltb a b = true.

(** The mapping returned by [build_from_documents] on a freshly
    constructed [LexiconBuilder]. *)
Definition fresh_lexicon (documents : list Document) : gmap string Z :=
  (LexiconBuilder.build_from_documents LexiconBuilder.init documents).2.

Definition vocabulary (documents : list Document) : list string :=
  LexiconBuilder.sorted (LexiconBuilder.collect_unique_words documents).

Definition docs_four : list Document :=
  [ {| doc_id := 0; tokens := Some ["four"]%string |} ].

Definition docs_six : list Document :=
  [ {| doc_id := 0; tokens := Some ["six"]%string |} ].

(** The posting map a barrel file unpickles to; a missing or corrupt file
    reads as the empty map. *)
Definition disk_of (fs : gmap Z BarrelFile) (barrel_id : Z) : gmap Z (list Z) :=
  match fs !! barrel_id with
  | Some (Pickled data) => data
  | _ => ∅
  end.

(** The doc ids stored for a word in a barrel file. *)
Definition postings (fs : gmap Z BarrelFile) (barrel_id word_id : Z) : list Z :=
  default [] (disk_of fs barrel_id !! word_id).

(** The doc ids pending in the buffer for a word of a barrel. *)
Definition buffered (buf : dict Z (dict Z (list Z))) (barrel_id word_id : Z)
  : list Z :=
  default [] (dict_get barrel_id buf ≫= dict_get word_id).

(** The buffer after [add_to_barrel] has found the barrel id. *)
Definition buf_add (buf : dict Z (dict Z (list Z))) (barrel_id word_id doc_id : Z)
  : dict Z (dict Z (list Z)) :=
  dict_upd barrel_id (dict_upd word_id (λ doc_ids, doc_ids ++ [doc_id]) []) [] buf.

(** The files after a barrel loop in which every write succeeds. *)
Definition flush_files (fs : gmap Z BarrelFile) (buf : dict Z (dict Z (list Z)))
  : gmap Z BarrelFile :=
  foldl (λ fs item,
           <[item.1 := Pickled (foldl BarrelManager.merge_word
                                      (disk_of fs item.1) item.2)]> fs)
        fs buf.

Definition buf_ok (buf : dict Z (dict Z (list Z))) : Prop :=
  dict_wf buf ∧ ∀ b nd, (b, nd) ∈ buf → dict_wf nd.

Ltac run_monad :=
  unfold mbind, mret, M_bind, M_ret, bind, ret, raise, gets, modify, try_except.

(** A build pass: [add_to_barrel] for each posting [(word_id, doc_id)] in
    turn, then [flush_barrels]. *)
Definition add_postings (ps : list (Z * Z)) : M unit :=
  for_each (λ p, BarrelManager.add_to_barrel p.1 p.2) ps.

Definition flush_pass (ps : list (Z * Z)) : M unit :=
  add_postings ps;; BarrelManager.flush_barrels.

Definition two_passes (ps1 ps2 : list (Z * Z)) : M unit :=
  flush_pass ps1;; flush_pass ps2.

(** The postings that [build_from_forward_index] emits, in order. *)
Definition postings_of (forward_index : dict Z (list Z)) : list (Z * Z) :=
  forward_index ≫= (λ item, (λ word_id, (word_id, item.1)) <$> item.2).

Definition buf_add_all (size : Z) (buf : dict Z (dict Z (list Z)))
    (ps : list (Z * Z)) : dict Z (dict Z (list Z)) :=
  foldl (λ buf p, buf_add buf (p.1 `div` size) p.1 p.2) buf ps.

(** ** lexicon_builder.py: persistence *)

(** A lexicon file either holds the pickle of a lexicon, written by
    [save_to_file], or does not unpickle. *)
Inductive LexiconFile :=
  | LexiconPickle (lexicon : gmap string Z)
  | LexiconGarbage.

(** The files by path, and the paths that cannot be written at present. *)
Record LexiconDisk := {
  lexicon_files : gmap string LexiconFile;
  lexicon_faults : gmap string WriteFault
}.

Module LexiconFiles.

(** [save_to_file]: [with open(filepath, 'wb') as f:
    pickle.dump(self.lexicon, f)]; an exception is not caught. *)
Definition save_to_file (self : LexiconBuilder.t) (filepath : string)
    (disk : LexiconDisk) : Res unit * LexiconDisk :=
  match lexicon_faults disk !! filepath with
  | Some OpenFails => (Raise OSError, disk)
  | Some DumpFails =>
      (Raise OSError,
       {| lexicon_files := <[filepath := LexiconGarbage]> (lexicon_files disk);
          lexicon_faults := lexicon_faults disk |})
  | None =>
      (Ok (),
       {| lexicon_files :=
            <[filepath := LexiconPickle (LexiconBuilder.lexicon self)]>
              (lexicon_files disk);
          lexicon_faults := lexicon_faults disk |})
  end.

(** [load_from_file]: [self.lexicon = pickle.load(f);
    self.next_word_id = len(self.lexicon)]; an exception is not caught and
    leaves the builder as it was. Returns the outcome and the builder. *)
Definition load_from_file (self : LexiconBuilder.t) (filepath : string)
    (disk : LexiconDisk) : Res (gmap string Z) * LexiconBuilder.t :=
  match lexicon_files disk !! filepath with
  | None => (Raise FileNotFoundError, self)
  | Some LexiconGarbage => (Raise UnpicklingError, self)
  | Some (LexiconPickle lexicon) =>
      (Ok lexicon,
       {| LexiconBuilder.lexicon := lexicon;
          LexiconBuilder.next_word_id := Z.of_nat (size lexicon) |})
  end.

End LexiconFiles.

(** ** preprocessor.py *)

(** The model is that of the code on ASCII text, where [str.lower] changes
    the letters A-Z only and the white space of [str.split] and of [\s] is
    the ten characters of [is_space]. *)
Module TextPreprocessor.

Record t := {
  remove_stopwords : bool;
  stopwords : gset string
}.

(** [__init__] *)
Definition init (remove_stopwords : bool) : t :=
  {| remove_stopwords := remove_stopwords;
     stopwords :=
       list_to_set
         [ "a"; "an"; "and"; "are"; "as"; "at"; "be"; "by"; "for";
           "from"; "has"; "he"; "in"; "is"; "it"; "its"; "of"; "on";
           "that"; "the"; "to"; "was"; "will"; "with" ]%string |}.

Definition code (c : ascii) : N := N_of_ascii c.

(** [str.lower] on one character. *)
Definition lower_char (c : ascii) : ascii :=
  if ((65 <=? code c) && (code c <=? 90))%N then ascii_of_N (code c + 32) else c.

(** White space: tab, line feed, vertical tab, form feed, carriage return,
    the separators 28 to 31, and the space. *)
Definition is_space (c : ascii) : bool :=
  (((9 <=? code c) && (code c <=? 13)) || ((28 <=? code c) && (code c <=? 32)))%N.

(** The class [a-z0-9]. *)
Definition is_kept (c : ascii) : bool :=
  (((97 <=? code c) && (code c <=? 122)) || ((48 <=? code c) && (code c <=? 57)))%N.

(** [re.sub(r'[^a-z0-9\s]', ' ', text)] on one character. *)
Definition sub_char (c : ascii) : ascii :=
  if is_kept c || is_space c then c else " "%char.

Fixpoint map_chars (f : ascii → ascii) (s : string) : string :=
  match s with
  | EmptyString => EmptyString
  | String c s' => String (f c) (map_chars f s')
  end.

(** [str.split()]: the maximal runs of characters that are not white
    space. [word] is the run being read. *)
Fixpoint split_go (word : string) (s : string) : list string :=
  match s with
  | EmptyString =>
      match word with
      | EmptyString => []
      | _ => [word]
      end
  | String c s' =>
      if is_space c then
        match word with
        | EmptyString => split_go EmptyString s'
        | _ => word :: split_go EmptyString s'
        end
      else split_go (word +:+ String c EmptyString) s'
  end.

Definition split (s : string) : list string := split_go EmptyString s.

(** [' '.join(words)] *)
Definition join (words : list string) : string := String.concat " " words.

(** [clean_text] *)
Definition clean_text (text : string) : string :=
  if decide (text = EmptyString) then EmptyString
  else
    let text := map_chars lower_char text in
    let text := map_chars sub_char text in
    join (split text).

(** [tokenize] *)
Definition tokenize (self : t) (text : string) : list string :=
  let cleaned_text := clean_text text in
  if decide (cleaned_text = EmptyString) then []
  else
    let tokens := split cleaned_text in
    let tokens :=
      if remove_stopwords self
      then filter (λ word, word ∉ stopwords self) tokens
      else tokens in
    filter (λ word, (1 < String.length word)%nat) tokens.

(** [preprocess] *)
Definition preprocess (self : t) (text : string) : list string :=
  tokenize self text.

End TextPreprocessor.

(** The characters of a string. *)
Definition chars (s : string) : list ascii := String.list_ascii_of_string s.

(** Text made of ASCII characters only. *)
Definition is_ascii (text : string) : Prop :=
  ∀ c, c ∈ chars text → (TextPreprocessor.code c < 128)%N.

(** A word: a non-empty string without white space. *)
Definition word_ok (w : string) : Prop :=
  w ≠ EmptyString ∧ ∀ c, c ∈ chars w → TextPreprocessor.is_space c = false.

(** The words of the cleaned text: the runs of [a-z0-9] of the lowered
    text. *)
Definition clean_words (text : string) : list string :=
  TextPreprocessor.split
    (TextPreprocessor.map_chars TextPreprocessor.sub_char
       (TextPreprocessor.map_chars TextPreprocessor.lower_char text)).

(** The invariant of a lexicon builder that has only built: the counter
    is non-negative, every id is below it, and no two words share an id. *)
Definition lexicon_ids_ok (self : LexiconBuilder.t) : Prop :=
  0 ≤ LexiconBuilder.next_word_id self ∧
  (∀ w id, LexiconBuilder.lexicon self !! w = Some id →
           0 ≤ id < LexiconBuilder.next_word_id self) ∧
  (∀ w1 w2 id, LexiconBuilder.lexicon self !! w1 = Some id →
               LexiconBuilder.lexicon self !! w2 = Some id → w1 = w2).

(** * Properties *)

(** ** Insertion-ordered dictionaries *)

Section dict_facts.
Context {K V : Type} `{EqDecision K}.
Implicit Types (d : dict K V) (k : K) (v : V).

Lemma dict_get_set d k k' v :
  dict_get k' (dict_set k v d) = if decide (k' = k) then Some v else dict_get k' d.
Proof.
  induction d as [|[k0 v0] d IH]; simpl.
  - by destruct (decide (k' = k)).
  - destruct (decide (k = k0)) as [->|Hne]; simpl.
    + by destruct (decide (k' = k0)).
    + rewrite IH. destruct (decide (k' = k0)) as [->|Hne']; [|done].
      by rewrite decide_False.
Qed.

Lemma dict_get_Some_elem d k v : dict_get k d = Some v → (k, v) ∈ d.
Proof.
  induction d as [|[k0 v0] d IH]; simpl; [done|].
  case_decide; intros Hg.
  - simplify_eq. left.
  - right. auto.
Qed.

Lemma dict_get_None d k : dict_get k d = None ↔ k ∉ keys d.
Proof.
  unfold keys. induction d as [|[k0 v0] d IH]; simpl.
  - split; [intros _; apply not_elem_of_nil | done].
  - rewrite not_elem_of_cons. case_decide; intuition congruence.
Qed.

Lemma dict_elem_get d k v : dict_wf d → (k, v) ∈ d → dict_get k d = Some v.
Proof.
  unfold dict_wf, keys. induction d as [|[k0 v0] d IH]; simpl.
  - intros _ Hin. by apply elem_of_nil in Hin.
  - rewrite NoDup_cons. intros [Hk0 Hnd] [Heq|Hin]%elem_of_cons.
    + simplify_eq. by destruct (decide (k0 = k0)).
    + destruct (decide (k = k0)) as [Hk|Hk]; [|by auto].
      subst k0. exfalso. apply Hk0.
      apply list_elem_of_fmap. by exists (k, v).
Qed.

Lemma keys_dict_set d k v :
  keys (dict_set k v d) = if decide (k ∈ keys d) then keys d else keys d ++ [k].
Proof.
  unfold keys. induction d as [|[k0 v0] d IH].
  - destruct (decide (k ∈ ([] : dict K V).*1)) as [Hin|_]; [|done].
    by apply elem_of_nil in Hin.
  - cbn [dict_set]. destruct (decide (k = k0)) as [->|Hne].
    + destruct (decide (k0 ∈ ((k0, v0) :: d).*1)) as [_|Hnin]; [done|].
      exfalso. apply Hnin. left.
    + rewrite fmap_cons, IH.
      destruct (decide (k ∈ d.*1)) as [Hin|Hnin];
        destruct (decide (k ∈ ((k0, v0) :: d).*1)) as [Hin'|Hnin'];
        try done.
      * exfalso. apply Hnin'. by right.
      * apply elem_of_cons in Hin' as [?|?]; done.
Qed.

Lemma dict_set_wf d k v : dict_wf d → dict_wf (dict_set k v d).
Proof.
  unfold dict_wf. rewrite keys_dict_set. case_decide as Hk; [done|].
  intros Hnd. apply NoDup_app. split_and!; [done| |apply NoDup_singleton].
  intros x Hx Hx'. apply list_elem_of_singleton in Hx'. by subst.
Qed.

Lemma dict_set_elem d k v k' v' :
  (k', v') ∈ dict_set k v d → (k' = k ∧ v' = v) ∨ (k', v') ∈ d.
Proof.
  induction d as [|[k0 v0] d IH]; simpl.
  - intros Hin%list_elem_of_singleton. simplify_eq. by left.
  - case_decide.
    + intros [Heq|Hin]%elem_of_cons; [simplify_eq; by left|].
      right. by right.
    + intros [Heq|Hin]%elem_of_cons; [right; simplify_eq; left|].
      destruct (IH Hin) as [?|?]; [by left|]. right. by right.
Qed.

Lemma dict_get_upd d k k' (f : V → V) dflt :
  dict_get k' (dict_upd k f dflt d) =
    if decide (k' = k) then Some (f (default dflt (dict_get k d)))
    else dict_get k' d.
Proof.
  unfold dict_upd. destruct (dict_get k d) eqn:Hg; by rewrite dict_get_set.
Qed.

Lemma dict_upd_wf d k (f : V → V) dflt : dict_wf d → dict_wf (dict_upd k f dflt d).
Proof. unfold dict_upd. destruct (dict_get k d); apply dict_set_wf. Qed.

Lemma dict_upd_elem d k (f : V → V) dflt k' v' :
  (k', v') ∈ dict_upd k f dflt d →
  (k' = k ∧ v' = f (default dflt (dict_get k d))) ∨ (k', v') ∈ d.
Proof.
  unfold dict_upd. destruct (dict_get k d) eqn:Hg; simpl; apply dict_set_elem.
Qed.
End dict_facts.

(** ** The order on strings *)

Lemma StronglySorted_lookup {A} (R : relation A) (l : list A) i j x y :
  StronglySorted R l → l !! i = Some x → l !! j = Some y → (i < j)%nat → R x y.
Proof.
  intros Hs. revert i j. induction Hs as [|a l Hs IH Hall]; intros i j; [done|].
  destruct i as [|i], j as [|j]; simpl; try lia.
  - intros [= ->] Hj _. rewrite Forall_forall in Hall.
    apply Hall. by apply list_elem_of_lookup_2 in Hj.
  - intros Hi Hj Hlt. apply (IH i j); [done..|lia].
Qed.

Lemma str_lt_alt a b : str_lt a b ↔ String_as_OT.lt a b.
Proof.
  unfold str_lt, String.ltb. rewrite <- String_as_OT.cmp_lt.
  unfold String_as_OT.cmp. destruct (String.compare a b); intuition congruence.
Qed.

Lemma str_le_alt a b : str_le a b ↔ a = b ∨ str_lt a b.
Proof.
  rewrite str_lt_alt. unfold str_le, String.leb.
  rewrite <- String_as_OT.cmp_lt, <- String_as_OT.cmp_eq.
  unfold String_as_OT.cmp. destruct (String.compare a b); intuition congruence.
Qed.

Lemma str_lt_irrefl a : ¬ str_lt a a.
Proof. rewrite str_lt_alt. intros H. by apply String_as_OT.lt_not_eq in H. Qed.

Lemma str_lt_trans a b c : str_lt a b → str_lt b c → str_lt a c.
Proof. rewrite !str_lt_alt. apply String_as_OT.lt_trans. Qed.

#[global] Instance str_le_total : Total str_le.
Proof. intros a b. apply String.leb_total. Qed.

#[global] Instance str_le_antisym : AntiSymm (=) str_le.
Proof. intros a b. apply String.leb_antisym. Qed.

#[global] Instance str_le_trans : Transitive str_le.
Proof.
  intros a b c. rewrite !str_le_alt.
  intros [->|Hab] [->|Hbc]; eauto using str_lt_trans.
Qed.

(** ** Lexicon *)

Section lexicon_facts.
Import LexiconBuilder.

Lemma elem_of_collect_unique_words documents w :
  w ∈ collect_unique_words documents ↔
  ∃ doc, doc ∈ documents ∧ w ∈ get_tokens doc.
Proof.
  unfold collect_unique_words.
  assert (∀ acc : gset string,
    w ∈ foldl (λ unique_words doc, unique_words ∪ list_to_set (get_tokens doc))
              acc documents ↔
    w ∈ acc ∨ ∃ doc, doc ∈ documents ∧ w ∈ get_tokens doc) as Hgen.
  { induction documents as [|doc documents IH]; intros acc; simpl.
    - split; [by left|]. intros [?|(doc & Hin & _)]; [done|].
      by apply elem_of_nil in Hin.
    - rewrite IH, elem_of_union, elem_of_list_to_set. split.
      + intros [[?|?]|(doc' & ? & ?)]; [by left| |].
        * right. exists doc. split; [left|done].
        * right. exists doc'. split; [by right|done].
      + intros [?|(doc' & [->|?]%elem_of_cons & ?)]; [by left; left| |].
        * left. by right.
        * right. by exists doc'. }
  rewrite Hgen. split; [|by right]. intros [Hin|?]; [|done].
  by apply not_elem_of_empty in Hin.
Qed.

Lemma elem_of_sorted (unique_words : gset string) w :
  w ∈ sorted unique_words ↔ w ∈ unique_words.
Proof.
  unfold sorted. rewrite merge_sort_Permutation. apply elem_of_elements.
Qed.

Lemma NoDup_sorted (unique_words : gset string) : NoDup (sorted unique_words).
Proof.
  unfold sorted. rewrite merge_sort_Permutation. apply NoDup_elements.
Qed.

Lemma sorted_increasing (unique_words : gset string) i j wi wj :
  sorted unique_words !! i = Some wi →
  sorted unique_words !! j = Some wj →
  (i < j)%nat → str_lt wi wj.
Proof.
  intros Hi Hj Hlt.
  pose proof (StronglySorted_merge_sort str_le (elements unique_words)) as Hs.
  pose proof (NoDup_sorted unique_words) as Hnd.
  fold (sorted unique_words) in Hs.
  pose proof (StronglySorted_lookup _ _ _ _ _ _ Hs Hi Hj Hlt) as Hle.
  apply str_le_alt in Hle as [->|?]; [|done].
  pose proof (NoDup_lookup _ _ _ _ Hnd Hi Hj). lia.
Qed.

(** The assignment loop, from any builder. *)
Lemma assign_loop_counter self words :
  next_word_id (foldl assign self words) = next_word_id self + Z.of_nat (length words).
Proof.
  revert self. induction words as [|w words IH]; intros self; simpl; [lia|].
  rewrite IH. simpl. lia.
Qed.

Lemma assign_loop_other self words w :
  w ∉ words → lexicon (foldl assign self words) !! w = lexicon self !! w.
Proof.
  revert self. induction words as [|w0 words IH]; intros self; simpl; [done|].
  rewrite not_elem_of_cons. intros [Hne Hnin]. rewrite IH by done.
  simpl. by rewrite lookup_insert_ne.
Qed.

Lemma assign_loop_index self words (n : nat) w :
  NoDup words → words !! n = Some w →
  lexicon (foldl assign self words) !! w = Some (next_word_id self + Z.of_nat n).
Proof.
  revert self n. induction words as [|w0 words IH]; intros self n; [done|].
  rewrite NoDup_cons. intros [Hnin Hnd]. destruct n as [|n]; simpl.
  - intros [= ->]. rewrite assign_loop_other by done. simpl.
    rewrite lookup_insert_eq. f_equal. lia.
  - intros Hn. rewrite (IH _ n) by done. simpl. f_equal. lia.
Qed.
End lexicon_facts.

Lemma fresh_lexicon_rank documents w id :
  fresh_lexicon documents !! w = Some id ↔
  ∃ n : nat, id = Z.of_nat n ∧ vocabulary documents !! n = Some w.
Proof.
  unfold fresh_lexicon, vocabulary, LexiconBuilder.build_from_documents. simpl.
  set (words := LexiconBuilder.sorted _).
  assert (NoDup words) as Hnd by apply NoDup_sorted.
  split.
  - intros Hl. destruct (decide (w ∈ words)) as [Hin|Hnin].
    + apply list_elem_of_lookup in Hin as [n Hn]. exists n. split; [|done].
      rewrite (assign_loop_index _ _ n) in Hl by done.
      simpl in Hl. injection Hl as <-. lia.
    + rewrite assign_loop_other in Hl by done. simpl in Hl.
      by rewrite lookup_empty in Hl.
  - intros (n & -> & Hn). by rewrite (assign_loop_index _ _ n) by done.
Qed.

(** C2. On a freshly constructed builder, the lexicon numbers the distinct
    tokens of the documents by their rank in lexicographic order: the
    vocabulary is duplicate-free and strictly increasing, a word has id [n]
    exactly when it is the [n]-th word of the vocabulary, so the ids are
    exactly [0..N-1] and no id is used twice; and two document collections
    with the same tokens (in particular the same collection, built twice)
    give the same mapping. *)
Theorem C2_lexicon_dense_sorted_deterministic (documents : list Document) :
  NoDup (vocabulary documents) ∧
  (∀ w, w ∈ vocabulary documents ↔ ∃ doc, doc ∈ documents ∧ w ∈ get_tokens doc) ∧
  (∀ i j wi wj,
     vocabulary documents !! i = Some wi →
     vocabulary documents !! j = Some wj →
     (i < j)%nat → str_lt wi wj) ∧
  (∀ w id,
     fresh_lexicon documents !! w = Some id ↔
     ∃ n : nat, id = Z.of_nat n ∧ vocabulary documents !! n = Some w) ∧
  (∀ id,
     (∃ w, fresh_lexicon documents !! w = Some id) ↔
     0 ≤ id < Z.of_nat (length (vocabulary documents))) ∧
  (∀ w1 w2 id,
     fresh_lexicon documents !! w1 = Some id →
     fresh_lexicon documents !! w2 = Some id → w1 = w2) ∧
  (∀ documents',
     (∀ w, (∃ doc, doc ∈ documents ∧ w ∈ get_tokens doc) ↔
           (∃ doc, doc ∈ documents' ∧ w ∈ get_tokens doc)) →
     fresh_lexicon documents' = fresh_lexicon documents).
Proof.
  split_and!.
  - apply NoDup_sorted.
  - intros w. unfold vocabulary.
    by rewrite elem_of_sorted, elem_of_collect_unique_words.
  - apply sorted_increasing.
  - apply fresh_lexicon_rank.
  - intros id. split.
    + intros (w & (n & -> & Hn)%fresh_lexicon_rank).
      apply lookup_lt_Some in Hn. lia.
    + intros Hid.
      destruct (lookup_lt_is_Some_2 (vocabulary documents) (Z.to_nat id))
        as [w Hw]; [lia|].
      exists w. apply fresh_lexicon_rank. exists (Z.to_nat id). split; [lia|done].
  - intros w1 w2 id (n1 & -> & H1)%fresh_lexicon_rank
      (n2 & Heq & H2)%fresh_lexicon_rank.
    assert (n1 = n2) as -> by lia. congruence.
  - intros documents' Hsame. unfold fresh_lexicon.
    unfold LexiconBuilder.build_from_documents.
    replace (LexiconBuilder.collect_unique_words documents')
      with (LexiconBuilder.collect_unique_words documents); [done|].
    apply set_eq. intros w. by rewrite !elem_of_collect_unique_words.
Qed.

(** C7, as the code has it. [build_from_documents] does not reset the
    builder. It returns the builder's own mapping, in which the [n]-th word
    of the sorted vocabulary of this call has id [next_word_id + n] for the
    counter the builder had before the call, every word outside this
    vocabulary keeps the id it had, and the counter has advanced by the size
    of the vocabulary. The counter is 0 and the mapping empty on a freshly
    constructed builder, and there the returned mapping is the rank in the
    vocabulary of the documents passed, and nothing else. *)
Theorem C7_build_continues_from_builder_state
    (self : LexiconBuilder.t) (documents : list Document) :
  (LexiconBuilder.build_from_documents self documents).2 =
    LexiconBuilder.lexicon (LexiconBuilder.build_from_documents self documents).1 ∧
  LexiconBuilder.next_word_id (LexiconBuilder.build_from_documents self documents).1 =
    LexiconBuilder.next_word_id self + Z.of_nat (length (vocabulary documents)) ∧
  (∀ (n : nat) w,
     vocabulary documents !! n = Some w →
     (LexiconBuilder.build_from_documents self documents).2 !! w =
       Some (LexiconBuilder.next_word_id self + Z.of_nat n)) ∧
  (∀ w,
     w ∉ vocabulary documents →
     (LexiconBuilder.build_from_documents self documents).2 !! w =
       LexiconBuilder.lexicon self !! w) ∧
  LexiconBuilder.next_word_id LexiconBuilder.init = 0 ∧
  LexiconBuilder.lexicon LexiconBuilder.init = ∅ ∧
  (∀ w id,
     (LexiconBuilder.build_from_documents LexiconBuilder.init documents).2 !! w
       = Some id ↔
     ∃ n : nat, id = Z.of_nat n ∧ vocabulary documents !! n = Some w).
Proof.
  split_and!; try done.
  - apply assign_loop_counter.
  - intros n w Hn. apply assign_loop_index; [apply NoDup_sorted|done].
  - intros w Hnin. by apply assign_loop_other.
  - apply fresh_lexicon_rank.
Qed.

(** C7, counterexample to a reset at each build: after a build of
    [docs_four] the same builder, given [docs_six], returns a mapping that
    still holds the word four and gives the word six the id 1, where a
    fresh builder gives the word six the id 0. *)
Lemma C7_rebuild_depends_on_prior_build :
  (LexiconBuilder.build_from_documents
     (LexiconBuilder.build_from_documents LexiconBuilder.init docs_four).1
     docs_six).2
  = {[ "four"%string := 0; "six"%string := 1 ]} ∧
  fresh_lexicon docs_six = {[ "six"%string := 0 ]} ∧
  (LexiconBuilder.build_from_documents
     (LexiconBuilder.build_from_documents LexiconBuilder.init docs_four).1
     docs_six).2
  ≠ fresh_lexicon docs_six.
Proof.
  split_and!.
  - by vm_compute.
  - by vm_compute.
  - intros Heq. apply (f_equal (λ m : gmap string Z, m !! "six"%string)) in Heq.
    vm_compute in Heq. discriminate.
Qed.

(** ** Forward index *)

Section forward_facts.
Import ForwardIndexBuilder.

Lemma convert_loop lexicon word_ids tokens :
  foldl (convert_token lexicon) word_ids tokens =
    word_ids ++ omap (λ token, lexicon !! token) tokens.
Proof.
  revert word_ids.
  induction tokens as [|token tokens IH]; intros word_ids; simpl.
  - by rewrite app_nil_r.
  - rewrite IH. unfold convert_token.
    destruct (lexicon !! token); [|done]. by rewrite <- app_assoc.
Qed.

Lemma convert_tokens_omap lexicon tokens :
  convert_tokens lexicon tokens = omap (λ token, lexicon !! token) tokens.
Proof. unfold convert_tokens. by rewrite convert_loop. Qed.

Lemma add_documents_lexicon self documents :
  lexicon (foldl add_document self documents) = lexicon self.
Proof.
  revert self. induction documents as [|doc documents IH]; intros self; [done|].
  simpl. by rewrite IH.
Qed.

Lemma add_documents_wf self documents :
  dict_wf (forward_index self) →
  dict_wf (forward_index (foldl add_document self documents)).
Proof.
  revert self. induction documents as [|doc documents IH]; intros self; [done|].
  simpl. intros Hwf. apply IH. simpl. by apply dict_set_wf.
Qed.

Lemma add_documents_other self documents id :
  (∀ doc, doc ∈ documents → doc_id doc ≠ id) →
  dict_get id (forward_index (foldl add_document self documents)) =
    dict_get id (forward_index self).
Proof.
  revert self. induction documents as [|doc documents IH]; intros self Hne; [done|].
  simpl. rewrite IH by (intros doc' ?; apply Hne; by right).
  simpl. rewrite dict_get_set, decide_False; [done|].
  intros ->. by apply (Hne doc); [left|].
Qed.

Lemma add_documents_last self before doc after :
  (∀ doc', doc' ∈ after → doc_id doc' ≠ doc_id doc) →
  dict_get (doc_id doc)
    (forward_index (foldl add_document self (before ++ doc :: after))) =
    Some (convert_tokens (lexicon self) (get_tokens doc)).
Proof.
  intros Hlast. rewrite foldl_app. simpl.
  rewrite add_documents_other by done. simpl.
  rewrite dict_get_set, decide_True by done.
  by rewrite add_documents_lexicon.
Qed.
End forward_facts.

(** C5. Whatever the builder held before, after [build_from_documents] the
    entry of a document (the last one carrying its [doc_id], which under
    the uniqueness of [doc_id]s is every document) is the list of the
    lexicon ids of its tokens, in token order, with one id per occurrence
    of a token of the lexicon and nothing for a token outside it. *)
Theorem C5_forward_index_entry
    (self : ForwardIndexBuilder.t) (before after : list Document) (doc : Document) :
  (∀ doc', doc' ∈ after → doc_id doc' ≠ doc_id doc) →
  dict_get (doc_id doc)
    (ForwardIndexBuilder.build_from_documents self (before ++ doc :: after)).2 =
    Some (omap (λ token, ForwardIndexBuilder.lexicon self !! token) (get_tokens doc)) ∧
  ForwardIndexBuilder.get_document_words
    (ForwardIndexBuilder.build_from_documents self (before ++ doc :: after)).1
    (doc_id doc) =
    omap (λ token, ForwardIndexBuilder.lexicon self !! token) (get_tokens doc).
Proof.
  intros Hlast.
  unfold ForwardIndexBuilder.get_document_words,
    ForwardIndexBuilder.build_from_documents. simpl.
  rewrite add_documents_last by done.
  by rewrite convert_tokens_omap.
Qed.

Lemma C5_forward_index_entry_witness :
  dict_get 1
    (ForwardIndexBuilder.build_from_documents
       (ForwardIndexBuilder.init {[ "six"%string := 1; "four"%string := 0 ]})
       docs_example).2 = Some [1].
Proof.
  refine (proj1 (C5_forward_index_entry
    (ForwardIndexBuilder.init {[ "six"%string := 1; "four"%string := 0 ]})
    [ {| doc_id := 0; tokens := Some ["six"; "four"]%string |} ]
    [ {| doc_id := 2; tokens := Some ["four"]%string |} ]
    {| doc_id := 1; tokens := Some ["six"; "wicket"]%string |} _)).
  intros doc' Hin. apply list_elem_of_singleton in Hin. subst doc'. simpl. lia.
Defined.

(** C10. A token whose lexicon id is 0 is recorded: the entry of a document
    holding such a token contains 0. *)
Theorem C10_word_id_zero_is_recorded
    (self : ForwardIndexBuilder.t) (before after : list Document)
    (doc : Document) (token : string) :
  ForwardIndexBuilder.lexicon self !! token = Some 0 →
  token ∈ get_tokens doc →
  (∀ doc', doc' ∈ after → doc_id doc' ≠ doc_id doc) →
  ∃ word_ids,
    dict_get (doc_id doc)
      (ForwardIndexBuilder.build_from_documents self (before ++ doc :: after)).2 =
      Some word_ids ∧
    0 ∈ word_ids.
Proof.
  intros Hzero Htoken Hlast. eexists. split.
  - unfold ForwardIndexBuilder.build_from_documents. simpl.
    by apply add_documents_last.
  - rewrite convert_tokens_omap. apply list_elem_of_omap.
    by exists token.
Qed.

Lemma C10_word_id_zero_is_recorded_witness :
  ∃ word_ids,
    dict_get 0
      (ForwardIndexBuilder.build_from_documents
         (ForwardIndexBuilder.init (fresh_lexicon docs_example))
         docs_example).2 = Some word_ids ∧
    0 ∈ word_ids.
Proof.
  refine (C10_word_id_zero_is_recorded
    (ForwardIndexBuilder.init (fresh_lexicon docs_example))
    []
    [ {| doc_id := 1; tokens := Some ["six"; "wicket"]%string |};
      {| doc_id := 2; tokens := Some ["four"]%string |} ]
    {| doc_id := 0; tokens := Some ["six"; "four"]%string |}
    "four"%string _ _ _).
  - by vm_compute.
  - simpl. right. left.
  - intros doc' Hin. simpl.
    apply elem_of_cons in Hin as [->|Hin]; [simpl; lia|].
    apply list_elem_of_singleton in Hin. subst doc'. simpl. lia.
Defined.

(** ** Barrels *)

Section barrel_facts.
Import BarrelManager.

Lemma set_files_files s : set_files (files s) s = s.
Proof. by destruct s. Qed.

Lemma get_barrel_id_run word_id s :
  get_barrel_id word_id s =
    if decide (barrel_size s = 0) then (Raise ZeroDivisionError, s)
    else (Ok (word_id `div` barrel_size s), s).
Proof. unfold get_barrel_id. run_monad. by destruct (decide _). Qed.

Lemma add_to_barrel_run word_id doc_id s :
  barrel_size s ≠ 0 →
  add_to_barrel word_id doc_id s =
    (Ok (),
     set_buffer (buf_add (barrels_buffer s) (word_id `div` barrel_size s)
                         word_id doc_id) s).
Proof.
  intros Hsize. unfold add_to_barrel, mbind, M_bind, bind.
  by rewrite get_barrel_id_run, decide_False by done.
Qed.

Lemma load_barrel_run barrel_id s :
  load_barrel barrel_id s = (Ok (disk_of (files s) barrel_id), s).
Proof.
  unfold load_barrel, path_exists, open_and_load, disk_of. run_monad.
  by destruct (files s !! barrel_id) as [[data|]|] eqn:Hf; simpl; rewrite ?Hf.
Qed.

Lemma get_documents_for_word_run word_id s :
  barrel_size s ≠ 0 →
  get_documents_for_word word_id s =
    (Ok (postings (files s) (word_id `div` barrel_size s) word_id), s).
Proof.
  intros Hsize. unfold get_documents_for_word.
  unfold mbind, M_bind, bind.
  rewrite get_barrel_id_run, decide_False by done.
  by rewrite load_barrel_run.
Qed.

Lemma flush_barrel_run barrel_id new_data s :
  flush_barrel (barrel_id, new_data) s =
    match write_faults s !! barrel_id with
    | None =>
        (Ok (),
         set_files (<[barrel_id :=
                        Pickled (foldl merge_word
                                       (disk_of (files s) barrel_id) new_data)]>
                     (files s)) s)
    | Some OpenFails => (Raise OSError, s)
    | Some DumpFails =>
        (Raise OSError, set_files (<[barrel_id := Corrupt]> (files s)) s)
    end.
Proof.
  unfold flush_barrel, path_exists, open_and_load, open_and_dump, disk_of.
  run_monad.
  destruct (files s !! barrel_id) as [[data|]|] eqn:Hf; simpl; rewrite ?Hf;
    by destruct (write_faults s !! barrel_id) as [[]|].
Qed.

(** The barrel loop either writes every barrel of the buffer, or stops at
    the first barrel that cannot be written; it never touches the
    buffer. *)
Lemma flush_loop_cases buf s :
  ((∀ b, b ∈ keys buf → write_faults s !! b = None) ∧
   for_each flush_barrel buf s =
     (Ok (), set_files (flush_files (files s) buf) s))
  ∨ (∃ b fs', b ∈ keys buf ∧ is_Some (write_faults s !! b) ∧
       for_each flush_barrel buf s = (Raise OSError, set_files fs' s)).
Proof.
  revert s. induction buf as [|[b nd] buf IH]; intros s.
  - left. split.
    + intros b Hb. by apply elem_of_nil in Hb.
    + simpl. by rewrite set_files_files.
  - cbn [for_each]. unfold mbind, M_bind, bind. rewrite flush_barrel_run.
    destruct (write_faults s !! b) as [[]|] eqn:Hwf.
    + right. exists b, (files s). split_and!; [left|by eauto|].
      by rewrite set_files_files.
    + right. exists b, (<[b:=Corrupt]> (files s)).
      split_and!; [left|by eauto|done].
    + match goal with |- context [for_each _ _ ?s1] =>
        destruct (IH s1) as [[Hok Hrun]|(b' & fs' & Hin & Hsome & Hrun)]
      end.
      * left. split.
        -- intros b' [->|Hin]%elem_of_cons; [done|]. by apply Hok.
        -- by rewrite Hrun.
      * right. exists b', fs'. split_and!; [by right|done|].
        by rewrite Hrun.
Qed.

Lemma flush_barrels_run s :
  flush_barrels s =
    match for_each flush_barrel (barrels_buffer s) s with
    | (Ok _, s') => (Ok (), set_buffer [] s')
    | (Raise e, s') => (Raise e, s')
    end.
Proof.
  unfold flush_barrels. run_monad.
  by destruct (for_each flush_barrel (barrels_buffer s) s) as [[[]|e] s'].
Qed.

(** A flush in which no barrel of the buffer is unwritable. *)
Lemma flush_barrels_ok s :
  (∀ b, b ∈ keys (barrels_buffer s) → write_faults s !! b = None) →
  flush_barrels s =
    (Ok (), set_buffer [] (set_files (flush_files (files s) (barrels_buffer s)) s)).
Proof.
  intros Hok. rewrite flush_barrels_run.
  destruct (flush_loop_cases (barrels_buffer s) s)
    as [[_ ->]|(b & fs' & Hin & [f Hsome] & _)]; [done|].
  rewrite Hok in Hsome by done. done.
Qed.

(** Whatever a flush does, success means that every barrel was written;
    failure means that some barrel of the buffer is unwritable and leaves
    the buffer as it was. *)
Lemma flush_barrels_cases s :
  ((∀ b, b ∈ keys (barrels_buffer s) → write_faults s !! b = None) ∧
   flush_barrels s =
     (Ok (), set_buffer [] (set_files (flush_files (files s) (barrels_buffer s)) s)))
  ∨ (∃ b fs', b ∈ keys (barrels_buffer s) ∧ is_Some (write_faults s !! b) ∧
       flush_barrels s = (Raise OSError, set_files fs' s)).
Proof.
  rewrite flush_barrels_run.
  destruct (flush_loop_cases (barrels_buffer s) s)
    as [[Hok ->]|(b & fs' & Hin & Hsome & ->)]; [by left|].
  right. by exists b, fs'.
Qed.
End barrel_facts.

Section merge_facts.
Import BarrelManager.

Lemma elem_of_list_set doc_ids d : d ∈ list_set doc_ids ↔ d ∈ doc_ids.
Proof. apply elem_of_remove_dups. Qed.

Lemma NoDup_list_set doc_ids : NoDup (list_set doc_ids).
Proof. apply NoDup_remove_dups. Qed.

Lemma merge_word_lookup current_data word_id doc_ids w :
  merge_word current_data (word_id, doc_ids) !! w =
    if decide (w = word_id)
    then Some (list_set (default [] (current_data !! word_id) ++ doc_ids))
    else current_data !! w.
Proof.
  unfold merge_word.
  destruct (current_data !! word_id) as [old|] eqn:Hold; simpl;
    destruct (decide (w = word_id)) as [->|Hne];
    by rewrite ?lookup_insert_eq, ?lookup_insert_ne by done.
Qed.

Lemma merge_loop_lookup current_data new_data w :
  dict_wf new_data →
  foldl merge_word current_data new_data !! w =
    match dict_get w new_data with
    | Some doc_ids => Some (list_set (default [] (current_data !! w) ++ doc_ids))
    | None => current_data !! w
    end.
Proof.
  unfold dict_wf, keys. revert current_data.
  induction new_data as [|[w0 ds0] new_data IH]; intros current_data; [done|].
  rewrite fmap_cons, NoDup_cons. intros [Hnin Hnd].
  cbn [foldl dict_get fst] in *.
  rewrite IH by done. destruct (decide (w = w0)) as [->|Hne].
  - apply dict_get_None in Hnin. rewrite Hnin.
    by rewrite merge_word_lookup, decide_True.
  - by rewrite merge_word_lookup, decide_False.
Qed.

(** Merging never drops a doc id that the barrel already held. *)
Lemma merge_loop_mono current_data new_data w d :
  d ∈ default [] (current_data !! w) →
  d ∈ default [] (foldl merge_word current_data new_data !! w).
Proof.
  revert current_data.
  induction new_data as [|[w0 ds0] new_data IH]; intros current_data; [done|].
  intros Hin. cbn [foldl]. apply IH. rewrite merge_word_lookup.
  destruct (decide (w = w0)) as [->|Hne]; [|done].
  simpl. apply elem_of_list_set, elem_of_app. by left.
Qed.

Lemma disk_of_insert fs b data b' :
  disk_of (<[b := Pickled data]> fs) b' =
    if decide (b' = b) then data else disk_of fs b'.
Proof.
  unfold disk_of. destruct (decide (b' = b)) as [->|Hne].
  - by rewrite lookup_insert_eq.
  - by rewrite lookup_insert_ne.
Qed.

Lemma flush_files_disk fs buf b :
  dict_wf buf →
  disk_of (flush_files fs buf) b =
    match dict_get b buf with
    | Some new_data => foldl merge_word (disk_of fs b) new_data
    | None => disk_of fs b
    end.
Proof.
  unfold dict_wf, keys, flush_files. revert fs.
  induction buf as [|[b0 nd0] buf IH]; intros fs; [done|].
  rewrite fmap_cons, NoDup_cons. intros [Hnin Hnd]. simpl in *.
  rewrite IH by done. rewrite disk_of_insert.
  destruct (decide (b = b0)) as [->|Hne]; [|done].
  apply dict_get_None in Hnin. by rewrite Hnin.
Qed.

Lemma flush_files_mono fs buf b w d :
  d ∈ postings fs b w → d ∈ postings (flush_files fs buf) b w.
Proof.
  unfold flush_files, postings. revert fs.
  induction buf as [|[b0 nd0] buf IH]; intros fs; [done|].
  intros Hin. simpl. apply IH. rewrite disk_of_insert.
  destruct (decide (b = b0)) as [->|Hne]; [|done].
  by apply merge_loop_mono.
Qed.

(** What a barrel file holds for a word after a flush in which every write
    succeeds: what it held, and what the buffer held for the word. *)
Lemma flush_files_postings fs buf b w :
  buf_ok buf →
  (∀ d, d ∈ postings (flush_files fs buf) b w ↔
        d ∈ postings fs b w ∨ d ∈ buffered buf b w) ∧
  (NoDup (postings fs b w) → NoDup (postings (flush_files fs buf) b w)).
Proof.
  intros [Hwf Hinner]. unfold postings, buffered.
  rewrite flush_files_disk by done.
  destruct (dict_get b buf) as [nd|] eqn:Hb; simpl.
  - apply dict_get_Some_elem, Hinner in Hb.
    rewrite merge_loop_lookup by done.
    destruct (dict_get w nd) as [ds|] eqn:Hw; simpl.
    + split; [|intros _; apply NoDup_list_set].
      intros d. by rewrite elem_of_list_set, elem_of_app.
    + split; [|done]. intros d. split; [by left|].
      intros [?|Hin]; [done|]. by apply elem_of_nil in Hin.
  - split; [|done]. intros d. split; [by left|].
    intros [?|Hin]; [done|]. by apply elem_of_nil in Hin.
Qed.

Lemma buf_add_ok buf b w d : buf_ok buf → buf_ok (buf_add buf b w d).
Proof.
  intros [Hwf Hinner]. unfold buf_add. split.
  - by apply dict_upd_wf.
  - intros b' nd [[-> ->]|Hin]%dict_upd_elem; [|by eapply Hinner].
    apply dict_upd_wf.
    destruct (dict_get b buf) as [nd|] eqn:Hb; simpl.
    + by apply dict_get_Some_elem, Hinner in Hb.
    + apply NoDup_nil_2.
Qed.

Lemma buffered_buf_add buf b w d b' w' :
  buffered (buf_add buf b w d) b' w' =
    if decide (b' = b ∧ w' = w) then buffered buf b w ++ [d]
    else buffered buf b' w'.
Proof.
  unfold buffered, buf_add. rewrite dict_get_upd.
  destruct (decide (b' = b)) as [->|Hb]; simpl.
  - rewrite dict_get_upd. destruct (decide (w' = w)) as [->|Hw]; simpl.
    + rewrite decide_True by done. by destruct (dict_get b buf).
    + rewrite decide_False by (by intros [_ ?]). by destruct (dict_get b buf).
  - by rewrite decide_False by (by intros [? _]).
Qed.
End merge_facts.

(** ** Build passes *)

Section pass_facts.
Import BarrelManager.

Lemma for_each_app {A} (body : A → M unit) l1 l2 s :
  for_each body (l1 ++ l2) s = (for_each body l1;; for_each body l2) s.
Proof.
  revert s. induction l1 as [|x l1 IH]; intros s; [done|].
  cbn [app for_each]. unfold mbind, M_bind, bind in *.
  destruct (body x s) as [[[]|e] s']; [|done]. apply IH.
Qed.

Lemma for_each_fmap {A B} (g : A → B) (body : B → M unit) l s :
  for_each body (g <$> l) s = for_each (λ x, body (g x)) l s.
Proof.
  revert s. induction l as [|x l IH]; intros s; [done|].
  cbn [fmap list_fmap for_each]. unfold mbind, M_bind, bind.
  destruct (body (g x) s) as [[[]|e] s']; [|done]. apply IH.
Qed.

Lemma add_postings_run ps s :
  barrel_size s ≠ 0 →
  add_postings ps s =
    (Ok (), set_buffer (buf_add_all (barrel_size s) (barrels_buffer s) ps) s).
Proof.
  unfold add_postings, buf_add_all. revert s.
  induction ps as [|[w d] ps IH]; intros s Hsize.
  - by destruct s.
  - cbn [for_each foldl]. unfold mbind, M_bind, bind.
    rewrite add_to_barrel_run by done. by rewrite IH.
Qed.

Lemma invert_loop_run forward_index s :
  for_each InvertedIndexBuilder.invert_document forward_index s =
    add_postings (postings_of forward_index) s.
Proof.
  unfold add_postings, postings_of. revert s.
  induction forward_index as [|[d ws] fwd IH]; intros s; [done|].
  cbn [for_each mbind list_bind]. rewrite for_each_app.
  unfold mbind, M_bind, bind. cbn [fst snd]. rewrite for_each_fmap.
  unfold InvertedIndexBuilder.invert_document at 1. cbn [fst snd].
  destruct (for_each _ ws s) as [[[]|e] s']; [|done]. apply IH.
Qed.

Lemma buf_add_all_ok size buf ps : buf_ok buf → buf_ok (buf_add_all size buf ps).
Proof.
  unfold buf_add_all. revert buf.
  induction ps as [|[w d] ps IH]; intros buf Hok; [done|].
  cbn [foldl]. by apply IH, buf_add_ok.
Qed.

Lemma buffered_buf_add_all size buf ps b w d :
  d ∈ buffered (buf_add_all size buf ps) b w ↔
  d ∈ buffered buf b w ∨ ((w, d) ∈ ps ∧ b = w `div` size).
Proof.
  unfold buf_add_all. revert buf.
  induction ps as [|[w0 d0] ps IH]; intros buf.
  - simpl. split; [by left|]. intros [?|[Hin _]]; [done|].
    by apply elem_of_nil in Hin.
  - cbn [foldl fst snd]. rewrite IH, buffered_buf_add, elem_of_cons.
    destruct (decide (b = w0 `div` size ∧ w = w0)) as [[-> ->]|Hne].
    + rewrite elem_of_app, list_elem_of_singleton. split.
      * intros [[?| ->]|[? ?]]; [by left|right; by split; [left|]|].
        right. by split; [right|].
      * intros [?|[[[= ->]|?] _]]; [by left; left|by left; right|].
        right. by split.
    + split.
      * intros [?|[? ?]]; [by left|right; by split; [right|]].
      * intros [?|[[[= -> ->]|?] ->]]; [by left| |right; by split].
        exfalso. by apply Hne.
Qed.

Lemma buf_ok_nil : buf_ok [].
Proof.
  split; [apply NoDup_nil_2|]. intros b nd Hin. by apply elem_of_nil in Hin.
Qed.

(** A pass on a manager with an empty buffer and a writable directory
    succeeds, leaves the buffer empty, and adds its postings to what the
    barrels held. *)
Lemma flush_pass_correct ps s :
  barrel_size s ≠ 0 → barrels_buffer s = [] → write_faults s = ∅ →
  ∃ s',
    flush_pass ps s = (Ok (), s') ∧
    barrel_size s' = barrel_size s ∧ barrels_buffer s' = [] ∧
    write_faults s' = ∅ ∧
    ∀ b w,
      (∀ d, d ∈ postings (files s') b w ↔
            d ∈ postings (files s) b w ∨ ((w, d) ∈ ps ∧ b = w `div` barrel_size s)) ∧
      (NoDup (postings (files s) b w) → NoDup (postings (files s') b w)).
Proof.
  intros Hsize Hbuf Hwf. unfold flush_pass, mbind, M_bind, bind.
  rewrite add_postings_run by done.
  rewrite flush_barrels_ok by (intros b _; simpl; by rewrite Hwf).
  eexists. split; [done|]. simpl. split_and!; [done..|].
  intros b w.
  destruct (flush_files_postings (files s)
              (buf_add_all (barrel_size s) (barrels_buffer s) ps) b w)
    as [Hmem Hnd].
  { apply buf_add_all_ok. rewrite Hbuf. apply buf_ok_nil. }
  split; [|done]. intros d. rewrite Hmem, buffered_buf_add_all, Hbuf.
  split; [|tauto]. intros [?|[Hin|?]]; [by left| |by right].
  by apply elem_of_nil in Hin.
Qed.
End pass_facts.

Lemma elem_of_postings_of forward_index w d :
  (w, d) ∈ postings_of forward_index ↔
  ∃ word_ids, (d, word_ids) ∈ forward_index ∧ w ∈ word_ids.
Proof.
  unfold postings_of. rewrite list_elem_of_bind. split.
  - intros ([d' ws] & Hin & Hitem). simpl in Hin.
    apply list_elem_of_fmap in Hin as (w' & [= -> ->] & Hw). by exists ws.
  - intros (ws & Hitem & Hw). exists (d, ws). split; [|done].
    simpl. apply list_elem_of_fmap. by exists w.
Qed.

Lemma elem_of_dict_entry (forward_index : dict Z (list Z)) w d :
  dict_wf forward_index →
  (w ∈ default [] (dict_get d forward_index) ↔
   ∃ word_ids, (d, word_ids) ∈ forward_index ∧ w ∈ word_ids).
Proof.
  intros Hwf. split.
  - destruct (dict_get d forward_index) as [ws|] eqn:Hd; simpl.
    + intros Hw. exists ws. split; [|done]. by apply dict_get_Some_elem.
    + intros Hw. by apply elem_of_nil in Hw.
  - intros (ws & Hin & Hw). by rewrite (dict_elem_get _ _ _ Hwf Hin).
Qed.

Lemma build_from_forward_index_run forward_index s :
  InvertedIndexBuilder.build_from_forward_index forward_index s =
    flush_pass (postings_of forward_index) s.
Proof.
  unfold InvertedIndexBuilder.build_from_forward_index, flush_pass.
  unfold mbind, M_bind, bind. by rewrite invert_loop_run.
Qed.

(** The inverted index of a forward index with distinct keys, built by a
    manager with an empty buffer in an empty, writable directory. *)
Lemma inverted_index_of_forward_index
    (forward_index : dict Z (list Z)) (size : Z) :
  size ≠ 0 → dict_wf forward_index →
  ∃ s',
    InvertedIndexBuilder.build_from_forward_index forward_index
      (BarrelManager.init size ∅ ∅) = (Ok (), s') ∧
    ∀ word_id doc_id,
      ∃ doc_ids,
        BarrelManager.get_documents_for_word word_id s' = (Ok doc_ids, s') ∧
        NoDup doc_ids ∧
        (word_id ∈ default [] (dict_get doc_id forward_index) ↔ doc_id ∈ doc_ids).
Proof.
  intros Hsize Hwf.
  destruct (flush_pass_correct (postings_of forward_index)
              (BarrelManager.init size ∅ ∅))
    as (s' & Hrun & Hsize' & _ & _ & Hpost); [done..|].
  exists s'. split; [by rewrite build_from_forward_index_run|].
  intros w d. eexists. split.
  { apply get_documents_for_word_run. by rewrite Hsize'. }
  rewrite Hsize'. simpl in *.
  destruct (Hpost (w `div` size) w) as [Hmem Hnd]. split.
  - apply Hnd. unfold postings, disk_of. rewrite lookup_empty. simpl.
    rewrite lookup_empty. apply NoDup_nil_2.
  - rewrite Hmem, elem_of_dict_entry, elem_of_postings_of by done.
    split; [by right|]. intros [Hin|[? _]]; [|done].
    unfold postings, disk_of in Hin. rewrite lookup_empty in Hin. simpl in Hin.
    rewrite lookup_empty in Hin. by apply elem_of_nil in Hin.
Qed.

(** C1. For every lexicon, document collection and non-zero barrel size:
    the forward index built from a fresh [ForwardIndexBuilder] is inverted
    and flushed successfully into an empty barrel directory, and afterwards
    [word_id] is in the forward-index entry of [doc_id] exactly when
    [doc_id] is among [get_documents_for_word(word_id)]. *)
Theorem C1_forward_inverted_consistency
    (lexicon : gmap string Z) (documents : list Document) (size : Z) :
  size ≠ 0 →
  ∃ s',
    InvertedIndexBuilder.build_from_forward_index
      (ForwardIndexBuilder.build_from_documents
         (ForwardIndexBuilder.init lexicon) documents).2
      (BarrelManager.init size ∅ ∅) = (Ok (), s') ∧
    ∀ word_id doc_id,
      ∃ doc_ids,
        BarrelManager.get_documents_for_word word_id s' = (Ok doc_ids, s') ∧
        (word_id ∈ ForwardIndexBuilder.get_document_words
                     (ForwardIndexBuilder.build_from_documents
                        (ForwardIndexBuilder.init lexicon) documents).1 doc_id
         ↔ doc_id ∈ doc_ids).
Proof.
  intros Hsize.
  destruct (inverted_index_of_forward_index
              (ForwardIndexBuilder.build_from_documents
                 (ForwardIndexBuilder.init lexicon) documents).2 size)
    as (s' & Hrun & Hdocs); [done| |].
  { apply add_documents_wf. apply NoDup_nil_2. }
  exists s'. split; [done|]. intros w d.
  destruct (Hdocs w d) as (doc_ids & Hget & _ & Hiff). by exists doc_ids.
Qed.

Lemma C1_forward_inverted_consistency_witness :
  ∃ s',
    InvertedIndexBuilder.build_from_forward_index
      (ForwardIndexBuilder.build_from_documents
         (ForwardIndexBuilder.init (fresh_lexicon docs_example)) docs_example).2
      (BarrelManager.init 2 ∅ ∅) = (Ok (), s') ∧
    ∀ word_id doc_id,
      ∃ doc_ids,
        BarrelManager.get_documents_for_word word_id s' = (Ok doc_ids, s') ∧
        (word_id ∈ ForwardIndexBuilder.get_document_words
                     (ForwardIndexBuilder.build_from_documents
                        (ForwardIndexBuilder.init (fresh_lexicon docs_example))
                        docs_example).1 doc_id
         ↔ doc_id ∈ doc_ids).
Proof.
  apply (C1_forward_inverted_consistency (fresh_lexicon docs_example) docs_example 2).
  lia.
Defined.

(** C3, as the code has it. Two passes on a manager with an empty buffer
    and a writable directory both succeed, and afterwards the lookup of
    every word returns what it returned before together with the doc ids
    that either pass added for the word, without duplicates where there
    were none: in a fresh directory, exactly the deduplicated union of both
    passes. And a flush that returns normally, of whatever buffer, keeps
    every doc id that any barrel file held for any word. *)
Theorem C3_merge_on_write (s : State) (ps1 ps2 : list (Z * Z)) :
  barrel_size s ≠ 0 → barrels_buffer s = [] → write_faults s = ∅ →
  (∃ s',
     two_passes ps1 ps2 s = (Ok (), s') ∧
     ∀ word_id,
       ∃ old new,
         BarrelManager.get_documents_for_word word_id s = (Ok old, s) ∧
         BarrelManager.get_documents_for_word word_id s' = (Ok new, s') ∧
         (∀ doc_id, doc_id ∈ new ↔
            doc_id ∈ old ∨ (word_id, doc_id) ∈ ps1 ∨ (word_id, doc_id) ∈ ps2) ∧
         (NoDup old → NoDup new)) ∧
  (∀ t t',
     BarrelManager.flush_barrels t = (Ok (), t') →
     ∀ barrel_id,
       ∃ data data',
         BarrelManager.load_barrel barrel_id t = (Ok data, t) ∧
         BarrelManager.load_barrel barrel_id t' = (Ok data', t') ∧
         ∀ word_id doc_id,
           doc_id ∈ default [] (data !! word_id) →
           doc_id ∈ default [] (data' !! word_id)).
Proof.
  intros Hsize Hbuf Hwf. split.
  - destruct (flush_pass_correct ps1 s) as (s1 & Hrun1 & Hsize1 & Hbuf1 & Hwf1 & Hpost1);
      [done..|].
    destruct (flush_pass_correct ps2 s1) as (s2 & Hrun2 & Hsize2 & Hbuf2 & Hwf2 & Hpost2);
      [congruence|done..|].
    exists s2. split.
    { unfold two_passes, mbind, M_bind, bind. by rewrite Hrun1. }
    intros w. do 2 eexists. split_and!.
    + by apply get_documents_for_word_run.
    + apply get_documents_for_word_run. congruence.
    + intros d. rewrite Hsize2, Hsize1.
      destruct (Hpost2 (w `div` barrel_size s) w) as [-> _].
      destruct (Hpost1 (w `div` barrel_size s) w) as [-> _].
      rewrite Hsize1. tauto.
    + rewrite Hsize2, Hsize1. intros Hnd.
      by apply Hpost2, Hpost1.
  - intros t t' Hflush b. do 2 eexists.
    split_and!; [apply load_barrel_run..|]. intros w d.
    destruct (flush_barrels_cases t) as [[_ Hrun]|(b' & fs' & _ & _ & Hrun)];
      rewrite Hrun in Hflush; [|done].
    injection Hflush as <-. simpl. apply flush_files_mono.
Qed.

Lemma C3_merge_on_write_witness :
  ∃ s',
    two_passes [(0, 0); (2, 1)] [(0, 2); (0, 0)] (BarrelManager.init 2 ∅ ∅)
      = (Ok (), s') ∧
    ∀ word_id,
      ∃ old new,
        BarrelManager.get_documents_for_word word_id (BarrelManager.init 2 ∅ ∅)
          = (Ok old, BarrelManager.init 2 ∅ ∅) ∧
        BarrelManager.get_documents_for_word word_id s' = (Ok new, s') ∧
        (∀ doc_id, doc_id ∈ new ↔
           doc_id ∈ old ∨ (word_id, doc_id) ∈ [(0, 0); (2, 1)]
           ∨ (word_id, doc_id) ∈ [(0, 2); (0, 0)]) ∧
        (NoDup old → NoDup new).
Proof.
  refine (proj1 (C3_merge_on_write (BarrelManager.init 2 ∅ ∅)
                   [(0, 0); (2, 1)] [(0, 2); (0, 0)] _ _ _)).
  - simpl. lia.
  - reflexivity.
  - reflexivity.
Defined.

(** C3, counterexample to "never removes": barrel 1 holds doc id 9 for
    word 2; a flush of one more posting for word 2 whose dump fails, after
    [open] has truncated the file, raises, and the lookup of word 2 that
    returned [[9]] before returns nothing afterwards. *)
Lemma C3_failed_dump_loses_postings :
  ∃ s',
    BarrelManager.get_documents_for_word 2
      (set_buffer [(1, [(2, [6])])]
         (BarrelManager.init 2 {[ 1 := Pickled {[ 2 := [9] ]} ]}
            {[ 1 := DumpFails ]}))
      = (Ok [9],
         set_buffer [(1, [(2, [6])])]
           (BarrelManager.init 2 {[ 1 := Pickled {[ 2 := [9] ]} ]}
              {[ 1 := DumpFails ]})) ∧
    BarrelManager.flush_barrels
      (set_buffer [(1, [(2, [6])])]
         (BarrelManager.init 2 {[ 1 := Pickled {[ 2 := [9] ]} ]}
            {[ 1 := DumpFails ]}))
      = (Raise OSError, s') ∧
    files s' = {[ 1 := Corrupt ]} ∧
    BarrelManager.get_documents_for_word 2 s' = (Ok [], s').
Proof.
  eexists. split_and!; by vm_compute.
Qed.

Lemma flush_barrels_empty_buffer s :
  barrels_buffer s = [] → BarrelManager.flush_barrels s = (Ok (), s).
Proof.
  intros Hbuf. rewrite flush_barrels_run, Hbuf. simpl.
  destruct s; simpl in *. by subst.
Qed.

(** C4. After a flush that succeeded, a second flush succeeds too and
    leaves the manager and every barrel file exactly as they were, also
    when the directory has meanwhile become unwritable, since it writes
    nothing. *)
Theorem C4_flush_idempotent (s s1 : State) (wf : gmap Z WriteFault) :
  BarrelManager.flush_barrels s = (Ok (), s1) →
  ∃ s2,
    BarrelManager.flush_barrels s1 = (Ok (), s2) ∧
    s2 = s1 ∧ files s2 = files s1 ∧
    BarrelManager.flush_barrels (set_faults wf s1) = (Ok (), set_faults wf s1).
Proof.
  intros Hflush.
  assert (barrels_buffer s1 = []) as Hbuf.
  { destruct (flush_barrels_cases s) as [[_ Hrun]|(b' & fs' & _ & _ & Hrun)];
      rewrite Hrun in Hflush; [|done].
    by injection Hflush as <-. }
  exists s1. split_and!; [|done..|]; by apply flush_barrels_empty_buffer.
Qed.

Lemma C4_flush_idempotent_witness :
  ∃ s2,
    BarrelManager.flush_barrels
      (set_buffer [] (set_files {[ 0 := Pickled {[ 0 := [7] ]} ]}
                        (BarrelManager.init 2 ∅ ∅)))
      = (Ok (), s2) ∧
    s2 = set_buffer [] (set_files {[ 0 := Pickled {[ 0 := [7] ]} ]}
                          (BarrelManager.init 2 ∅ ∅)) ∧
    files s2 = {[ 0 := Pickled {[ 0 := [7] ]} ]} ∧
    BarrelManager.flush_barrels
      (set_faults {[ 0 := OpenFails ]}
         (set_buffer [] (set_files {[ 0 := Pickled {[ 0 := [7] ]} ]}
                           (BarrelManager.init 2 ∅ ∅))))
      = (Ok (),
         set_faults {[ 0 := OpenFails ]}
           (set_buffer [] (set_files {[ 0 := Pickled {[ 0 := [7] ]} ]}
                             (BarrelManager.init 2 ∅ ∅)))).
Proof.
  refine (C4_flush_idempotent
            (set_buffer [(0, [(0, [7])])] (BarrelManager.init 2 ∅ ∅))
            _ {[ 0 := OpenFails ]} _).
  vm_compute. reflexivity.
Defined.

(** C6. The three-document scenario, with barrel size 2 and an empty
    directory: the lexicon, the forward index, the two barrel files read as
    maps from word ids to sets of doc ids, and the two lookups. *)
Theorem C6_end_to_end_scenario :
  ∃ s,
    build_indices docs_example 2 ∅ ∅ =
      ({[ "four"%string := 0; "six"%string := 1; "wicket"%string := 2 ]},
       [(0, [1; 0]); (1, [1; 2]); (2, [0])],
       (Ok (), s)) ∧
    dom (files s) = ({[ 0; 1 ]} : gset Z) ∧
    (∃ data, BarrelManager.load_barrel 0 s = (Ok data, s) ∧
       (list_to_set <$> data : gmap Z (gset Z)) =
         {[ 0 := {[ 0; 2 ]}; 1 := {[ 0; 1 ]} ]}) ∧
    (∃ data, BarrelManager.load_barrel 1 s = (Ok data, s) ∧
       (list_to_set <$> data : gmap Z (gset Z)) = {[ 2 := {[ 1 ]} ]}) ∧
    (∃ doc_ids, BarrelManager.get_documents_for_word 0 s = (Ok doc_ids, s) ∧
       NoDup doc_ids ∧ (list_to_set doc_ids : gset Z) = {[ 0; 2 ]}) ∧
    (∃ doc_ids, BarrelManager.get_documents_for_word 2 s = (Ok doc_ids, s) ∧
       NoDup doc_ids ∧ (list_to_set doc_ids : gset Z) = {[ 1 ]}).
Proof.
  eexists. split; [by vm_compute|].
  split_and!.
  - by vm_compute.
  - eexists. split; [by vm_compute|]. by vm_compute.
  - eexists. split; [by vm_compute|]. by vm_compute.
  - eexists. split; [by vm_compute|]. split; [|by vm_compute].
    apply (bool_decide_unpack _). by vm_compute.
  - eexists. split; [by vm_compute|]. split; [|by vm_compute].
    apply (bool_decide_unpack _). by vm_compute.
Qed.

Lemma flush_files_pickled fs buf b :
  b ∈ keys buf ∨ (∃ data, fs !! b = Some (Pickled data)) →
  ∃ data, flush_files fs buf !! b = Some (Pickled data).
Proof.
  unfold flush_files, keys. revert fs.
  induction buf as [|[b0 nd0] buf IH]; intros fs.
  - intros [Hin|?]; [|done]. by apply elem_of_nil in Hin.
  - intros Hb. cbn [foldl fst snd]. apply IH.
    destruct (decide (b = b0)) as [->|Hne].
    + right. rewrite lookup_insert_eq. by eexists.
    + rewrite lookup_insert_ne by done.
      destruct Hb as [[?|?]%elem_of_cons|?]; [done|by left|by right].
Qed.

(** C8. When some barrel of the buffer cannot be written, [flush_barrels]
    raises the write error and the buffer is as it was before the call, so
    that a flush retried once the directory is writable succeeds and puts
    every pending doc id on disk. In general, a flush that changes the
    buffer has returned normally, after writing the file of every barrel of
    the buffer. *)
Theorem C8_buffer_kept_on_write_failure (s : State) (barrel_id : Z) :
  barrel_id ∈ keys (barrels_buffer s) →
  is_Some (write_faults s !! barrel_id) →
  buf_ok (barrels_buffer s) →
  (∃ s',
     BarrelManager.flush_barrels s = (Raise OSError, s') ∧
     barrels_buffer s' = barrels_buffer s ∧
     ∃ s'',
       BarrelManager.flush_barrels (set_faults ∅ s') = (Ok (), s'') ∧
       barrels_buffer s'' = [] ∧
       ∀ b word_id doc_id,
         doc_id ∈ buffered (barrels_buffer s) b word_id →
         ∃ data,
           BarrelManager.load_barrel b s'' = (Ok data, s'') ∧
           doc_id ∈ default [] (data !! word_id)) ∧
  (∀ t r t',
     BarrelManager.flush_barrels t = (r, t') →
     barrels_buffer t' ≠ barrels_buffer t →
     r = Ok () ∧
     ∀ b, b ∈ keys (barrels_buffer t) →
          write_faults t !! b = None ∧
          ∃ data, files t' !! b = Some (Pickled data)).
Proof.
  intros Hin Hfault Hok. split.
  - destruct (flush_barrels_cases s) as [[Hnone _]|(b' & fs' & _ & _ & Hrun)].
    { rewrite Hnone in Hfault by done. by destruct Hfault. }
    eexists. split; [done|]. split; [done|].
    eexists. split.
    { apply flush_barrels_ok. intros b _. simpl. apply lookup_empty. }
    split; [done|]. intros b w d Hd. eexists. split; [apply load_barrel_run|].
    simpl. eapply (flush_files_postings fs' (barrels_buffer s) b w); [done|].
    by right.
  - intros t r t' Hflush Hchanged.
    destruct (flush_barrels_cases t) as [[Hnone Hrun]|(b' & fs' & _ & _ & Hrun)];
      rewrite Hrun in Hflush; injection Hflush as <- <-; [|done].
    split; [done|]. intros b Hb. split; [by apply Hnone|].
    simpl. apply flush_files_pickled. by left.
Qed.

Lemma C8_buffer_kept_on_write_failure_witness :
  ∃ s',
    BarrelManager.flush_barrels
      (set_buffer [(0, [(1, [5])]); (1, [(2, [6])])]
         (BarrelManager.init 2 ∅ {[ 1 := DumpFails ]}))
      = (Raise OSError, s') ∧
    barrels_buffer s' = [(0, [(1, [5])]); (1, [(2, [6])])].
Proof.
  assert (1 ∈ keys [(0, [(1, [5])]); (1, [(2, [6])])]) as Hin
    by (apply (bool_decide_unpack _); by vm_compute).
  assert (is_Some (({[ 1 := DumpFails ]} : gmap Z WriteFault) !! 1)) as Hfault
    by (vm_compute; by eexists).
  assert (buf_ok [(0, [(1, [5])]); (1, [(2, [6])])]) as Hok.
  { split; [apply (bool_decide_unpack _); by vm_compute|].
    intros b nd Hnd. apply (bool_decide_unpack _).
    repeat (apply elem_of_cons in Hnd as [Hnd|Hnd];
            [injection Hnd as -> ->; by vm_compute|]).
    by apply elem_of_nil in Hnd. }
  destruct (proj1 (C8_buffer_kept_on_write_failure
    (set_buffer [(0, [(1, [5])]); (1, [(2, [6])])]
       (BarrelManager.init 2 ∅ {[ 1 := DumpFails ]})) 1 Hin Hfault Hok))
    as (s' & Hrun & Hbuf & _).
  by exists s'.
Defined.

(** C9. [load_barrel] always returns normally, with the empty map when the
    barrel file is missing or does not unpickle; and for a manager with a
    non-zero barrel size, [get_documents_for_word] returns the empty list
    for a word whose barrel file is missing, corrupt, or holds no entry for
    the word. *)
Theorem C9_missing_or_corrupt_reads_empty (s : State) (word_id : Z) :
  barrel_size s ≠ 0 →
  (∀ barrel_id,
     ∃ data,
       BarrelManager.load_barrel barrel_id s = (Ok data, s) ∧
       (files s !! barrel_id = None ∨ files s !! barrel_id = Some Corrupt →
        data = ∅)) ∧
  (files s !! (word_id `div` barrel_size s) = None ∨
   files s !! (word_id `div` barrel_size s) = Some Corrupt ∨
   (∃ data, files s !! (word_id `div` barrel_size s) = Some (Pickled data) ∧
            data !! word_id = None) →
   BarrelManager.get_documents_for_word word_id s = (Ok [], s)).
Proof.
  intros Hsize. split.
  - intros b. eexists. split; [apply load_barrel_run|].
    unfold disk_of. by intros [->| ->].
  - intros Hfile. rewrite get_documents_for_word_run by done.
    unfold postings, disk_of.
    destruct Hfile as [->|[->|(data & -> & Hw)]]; simpl;
      by rewrite ?lookup_empty, ?Hw.
Qed.

Lemma C9_missing_or_corrupt_reads_empty_witness :
  BarrelManager.get_documents_for_word 5
    (BarrelManager.init 2 {[ 2 := Corrupt ]} ∅)
  = (Ok [], BarrelManager.init 2 {[ 2 := Corrupt ]} ∅).
Proof.
  refine (proj2 (C9_missing_or_corrupt_reads_empty
    (BarrelManager.init 2 {[ 2 := Corrupt ]} ∅) 5 _) _).
  - simpl. lia.
  - right. left. by vm_compute.
Defined.

(** * Further properties of the code *)

(** ** Barrel addressing *)

(** X1. For a positive barrel size, [get_barrel_id] returns the one barrel whose
    half-open range [[b * size, (b + 1) * size)] holds the word id. *)
Theorem get_barrel_id_range (s : State) (word_id : Z) :
  0 < barrel_size s →
  ∃ b,
    BarrelManager.get_barrel_id word_id s = (Ok b, s) ∧
    b * barrel_size s ≤ word_id < (b + 1) * barrel_size s ∧
    ∀ b', b' * barrel_size s ≤ word_id < (b' + 1) * barrel_size s → b' = b.
Proof.
  intros Hsize. exists (word_id `div` barrel_size s).
  rewrite get_barrel_id_run, decide_False by lia. split; [done|].
  pose proof (Z.div_mod word_id (barrel_size s)) as Hdm.
  pose proof (Z.mod_pos_bound word_id (barrel_size s) Hsize) as Hmod.
  split; [nia|]. intros b' Hb'.
  apply (Z.div_unique word_id (barrel_size s) b' (word_id - b' * barrel_size s));
    [left|]; lia.
Qed.

Lemma get_barrel_id_range_witness :
  ∃ b,
    BarrelManager.get_barrel_id 4999 (BarrelManager.init 2500 ∅ ∅)
      = (Ok b, BarrelManager.init 2500 ∅ ∅) ∧
    b * 2500 ≤ 4999 < (b + 1) * 2500 ∧
    ∀ b', b' * 2500 ≤ 4999 < (b' + 1) * 2500 → b' = b.
Proof.
  apply (get_barrel_id_range (BarrelManager.init 2500 ∅ ∅) 4999). simpl. lia.
Defined.

(** X2. For a positive barrel size, a larger word id never lands in a smaller
    barrel. *)
Theorem get_barrel_id_monotone (s : State) (w1 w2 : Z) :
  0 < barrel_size s → w1 ≤ w2 →
  ∃ b1 b2,
    BarrelManager.get_barrel_id w1 s = (Ok b1, s) ∧
    BarrelManager.get_barrel_id w2 s = (Ok b2, s) ∧
    b1 ≤ b2.
Proof.
  intros Hsize Hle.
  exists (w1 `div` barrel_size s), (w2 `div` barrel_size s).
  rewrite !get_barrel_id_run. destruct (decide (barrel_size s = 0)); [lia|].
  split_and!; [done..|]. by apply Z.div_le_mono.
Qed.

Lemma get_barrel_id_monotone_witness :
  ∃ b1 b2,
    BarrelManager.get_barrel_id 2499 (BarrelManager.init 2500 ∅ ∅)
      = (Ok b1, BarrelManager.init 2500 ∅ ∅) ∧
    BarrelManager.get_barrel_id 2500 (BarrelManager.init 2500 ∅ ∅)
      = (Ok b2, BarrelManager.init 2500 ∅ ∅) ∧
    b1 ≤ b2.
Proof.
  apply (get_barrel_id_monotone (BarrelManager.init 2500 ∅ ∅) 2499 2500);
    simpl; lia.
Defined.

(** X3. With barrel size 0 every operation that addresses a barrel raises
    [ZeroDivisionError] and leaves the manager and the directory as they
    were; the build raises as soon as the forward index holds one word
    id. *)
Theorem barrel_size_zero_raises (s : State) :
  barrel_size s = 0 →
  (∀ word_id,
     BarrelManager.get_barrel_id word_id s = (Raise ZeroDivisionError, s)) ∧
  (∀ word_id doc_id,
     BarrelManager.add_to_barrel word_id doc_id s = (Raise ZeroDivisionError, s)) ∧
  (∀ word_id,
     BarrelManager.get_documents_for_word word_id s
       = (Raise ZeroDivisionError, s)) ∧
  (∀ forward_index,
     postings_of forward_index ≠ [] →
     InvertedIndexBuilder.build_from_forward_index forward_index s
       = (Raise ZeroDivisionError, s)).
Proof.
  intros Hsize.
  assert (∀ w, BarrelManager.get_barrel_id w s = (Raise ZeroDivisionError, s))
    as Hid by (intros w; by rewrite get_barrel_id_run, decide_True).
  assert (∀ w d, BarrelManager.add_to_barrel w d s = (Raise ZeroDivisionError, s))
    as Hadd.
  { intros w d. unfold BarrelManager.add_to_barrel, mbind, M_bind, bind.
    by rewrite Hid. }
  split_and!; [done..| |].
  - intros w. unfold BarrelManager.get_documents_for_word, mbind, M_bind, bind.
    by rewrite Hid.
  - intros fwd Hne. rewrite build_from_forward_index_run.
    unfold flush_pass, add_postings, mbind, M_bind, bind.
    destruct (postings_of fwd) as [|[w d] ps]; [done|].
    cbn [for_each fst snd]. unfold mbind, M_bind, bind. by rewrite Hadd.
Qed.

Lemma barrel_size_zero_raises_witness :
  InvertedIndexBuilder.build_from_forward_index [(0, [1; 0])]
    (BarrelManager.init 0 ∅ ∅)
  = (Raise ZeroDivisionError, BarrelManager.init 0 ∅ ∅).
Proof.
  refine (proj2 (proj2 (proj2 (barrel_size_zero_raises
            (BarrelManager.init 0 ∅ ∅) _))) [(0, [1; 0])] _).
  - reflexivity.
  - discriminate.
Defined.

(** ** Buffering *)

(** X4. [add_to_barrel] appends the doc id to the pending list of its word,
    keeping earlier occurrences of the same doc id, and changes neither the
    pending list of any other word nor any file. *)
Theorem add_to_barrel_appends (s : State) (word_id doc_id : Z) :
  barrel_size s ≠ 0 →
  ∃ s',
    BarrelManager.add_to_barrel word_id doc_id s = (Ok (), s') ∧
    files s' = files s ∧ barrel_size s' = barrel_size s ∧
    write_faults s' = write_faults s ∧
    buffered (barrels_buffer s') (word_id `div` barrel_size s) word_id =
      buffered (barrels_buffer s) (word_id `div` barrel_size s) word_id
        ++ [doc_id] ∧
    ∀ b w, ¬ (b = word_id `div` barrel_size s ∧ w = word_id) →
           buffered (barrels_buffer s') b w = buffered (barrels_buffer s) b w.
Proof.
  intros Hsize. eexists. split; [by apply add_to_barrel_run|].
  simpl. split_and!; [done..| |].
  - by rewrite buffered_buf_add, decide_True.
  - intros b w Hne. by rewrite buffered_buf_add, decide_False.
Qed.

Lemma add_to_barrel_appends_witness :
  ∃ s',
    BarrelManager.add_to_barrel 3 7
      (set_buffer [(1, [(3, [7])])] (BarrelManager.init 2 ∅ ∅)) = (Ok (), s') ∧
    buffered (barrels_buffer s') 1 3 = [7; 7].
Proof.
  destruct (add_to_barrel_appends
              (set_buffer [(1, [(3, [7])])] (BarrelManager.init 2 ∅ ∅)) 3 7)
    as (s' & Hrun & _ & _ & _ & Hbuf & _); [simpl; lia|].
  exists s'. split; [exact Hrun|]. exact Hbuf.
Defined.

(** X5. Lookups never change the manager or the directory, whether they return
    or raise. *)
Theorem lookups_are_read_only (s : State) :
  (∀ barrel_id, (BarrelManager.load_barrel barrel_id s).2 = s) ∧
  (∀ word_id, (BarrelManager.get_documents_for_word word_id s).2 = s).
Proof.
  split.
  - intros b. by rewrite load_barrel_run.
  - intros w. unfold BarrelManager.get_documents_for_word, mbind, M_bind, bind.
    rewrite get_barrel_id_run. destruct (decide (barrel_size s = 0)); [done|].
    by rewrite load_barrel_run.
Qed.

(** ** Flushing *)

Lemma flush_files_other fs buf b :
  b ∉ keys buf → flush_files fs buf !! b = fs !! b.
Proof.
  unfold flush_files, keys. revert fs.
  induction buf as [|[b0 nd0] buf IH]; intros fs; [done|].
  rewrite fmap_cons, not_elem_of_cons. intros [Hne Hnin].
  cbn [foldl fst snd]. rewrite IH by done. by rewrite lookup_insert_ne.
Qed.

Lemma first_fault_split (buf : dict Z (dict Z (list Z))) (wf : gmap Z WriteFault) :
  (∀ b, b ∈ keys buf → wf !! b = None) ∨
  (∃ pre b nd post f,
     buf = pre ++ (b, nd) :: post ∧
     (∀ b', b' ∈ keys pre → wf !! b' = None) ∧ wf !! b = Some f).
Proof.
  induction buf as [|[b nd] buf IH].
  - left. intros b Hb. by apply elem_of_nil in Hb.
  - destruct (wf !! b) as [f|] eqn:Hf.
    + right. exists [], b, nd, buf, f. split_and!; [done| |done].
      intros b' Hb'. by apply elem_of_nil in Hb'.
    + destruct IH as [Hok|(pre & b0 & nd0 & post & f & -> & Hpre & Hf0)].
      * left. intros b' [->|Hb']%elem_of_cons; [done|by apply Hok].
      * right. exists ((b, nd) :: pre), b0, nd0, post, f.
        split_and!; [done| |done].
        intros b' [->|Hb']%elem_of_cons; [done|by apply Hpre].
Qed.

Lemma flush_barrels_fail s pre b nd post f :
  barrels_buffer s = pre ++ (b, nd) :: post →
  (∀ b', b' ∈ keys pre → write_faults s !! b' = None) →
  write_faults s !! b = Some f →
  BarrelManager.flush_barrels s =
    (Raise OSError,
     set_files
       (match f with
        | OpenFails => flush_files (files s) pre
        | DumpFails => <[b := Corrupt]> (flush_files (files s) pre)
        end) s).
Proof.
  intros Hbuf Hpre Hf. rewrite flush_barrels_run, Hbuf, for_each_app.
  unfold mbind, M_bind, bind.
  destruct (flush_loop_cases pre s) as [[_ ->]|(b' & fs' & Hin & [f' Hsome] & _)].
  - cbn [for_each]. unfold mbind, M_bind, bind. rewrite flush_barrel_run.
    simpl. rewrite Hf. by destruct f.
  - rewrite Hpre in Hsome by done. done.
Qed.

(** X6. A flush, whether it returns or raises, keeps the barrel size, and
    leaves the file of every barrel that has no entry in the buffer exactly
    as it was. *)
Theorem flush_barrels_frame (s s' : State) (r : Res unit) :
  BarrelManager.flush_barrels s = (r, s') →
  barrel_size s' = barrel_size s ∧
  ∀ b, b ∉ keys (barrels_buffer s) → files s' !! b = files s !! b.
Proof.
  intros Hflush.
  destruct (first_fault_split (barrels_buffer s) (write_faults s))
    as [Hok|(pre & b0 & nd0 & post & f & Hbuf & Hpre & Hf)].
  - rewrite flush_barrels_ok in Hflush by done. injection Hflush as <- <-.
    split; [done|]. intros b Hb. simpl. by apply flush_files_other.
  - rewrite (flush_barrels_fail _ _ _ _ _ _ Hbuf Hpre Hf) in Hflush.
    injection Hflush as <- <-. split; [done|]. intros b Hb. simpl.
    rewrite Hbuf in Hb. unfold keys in Hb.
    rewrite fmap_app, fmap_cons, not_elem_of_app, not_elem_of_cons in Hb.
    destruct Hb as (Hb1 & Hb2 & _). simpl in Hb2.
    destruct f; rewrite ?lookup_insert_ne by done; by apply flush_files_other.
Qed.

Lemma flush_barrels_frame_witness :
  files (BarrelManager.flush_barrels
           (set_buffer [(0, [(1, [5])])]
              (BarrelManager.init 2 {[ 3 := Corrupt ]} {[ 0 := DumpFails ]}))).2
    !! 3 = Some Corrupt.
Proof.
  refine (eq_trans (proj2 (flush_barrels_frame
    (set_buffer [(0, [(1, [5])])]
       (BarrelManager.init 2 {[ 3 := Corrupt ]} {[ 0 := DumpFails ]}))
    _ _ (surjective_pairing _)) 3 _) _).
  - apply (bool_decide_unpack _). by vm_compute.
  - by vm_compute.
Defined.

(** X7. What a successful flush stores for a barrel of the buffer: the file
    unpickles; a word of the buffer gets a duplicate-free list holding what
    [load_barrel] returned for it before (nothing, for a missing or corrupt
    file) and its pending doc ids; every other word of the barrel keeps its
    list unchanged. *)
Theorem flush_barrels_content (s s' : State) (b : Z) (new_data : dict Z (list Z)) :
  buf_ok (barrels_buffer s) →
  BarrelManager.flush_barrels s = (Ok (), s') →
  dict_get b (barrels_buffer s) = Some new_data →
  ∃ old data',
    BarrelManager.load_barrel b s = (Ok old, s) ∧
    files s' !! b = Some (Pickled data') ∧
    ∀ w,
      match dict_get w new_data with
      | Some doc_ids =>
          ∃ l, data' !! w = Some l ∧ NoDup l ∧
               ∀ d, d ∈ l ↔ d ∈ default [] (old !! w) ∨ d ∈ doc_ids
      | None => data' !! w = old !! w
      end.
Proof.
  intros [Hwf Hinner] Hflush Hb.
  destruct (flush_barrels_cases s) as [[_ Hrun]|(b' & fs' & _ & _ & Hrun)];
    rewrite Hrun in Hflush; [|done].
  injection Hflush as <-. simpl.
  destruct (flush_files_pickled (files s) (barrels_buffer s) b) as [data' Hdata'].
  { left. apply dict_get_Some_elem in Hb. apply list_elem_of_fmap.
    by exists (b, new_data). }
  exists (disk_of (files s) b), data'.
  split_and!; [apply load_barrel_run|done|]. intros w.
  pose proof (flush_files_disk (files s) (barrels_buffer s) b Hwf) as Hdisk.
  rewrite Hb in Hdisk. unfold disk_of at 1 in Hdisk. rewrite Hdata' in Hdisk.
  rewrite Hdisk, merge_loop_lookup
    by (eapply Hinner; by apply dict_get_Some_elem).
  destruct (dict_get w new_data) as [ds|]; [|done].
  eexists. split_and!; [done|apply NoDup_list_set|].
  intros d. by rewrite elem_of_list_set, elem_of_app.
Qed.

Lemma flush_barrels_content_witness :
  ∃ old data',
    BarrelManager.load_barrel 0
      (set_buffer [(0, [(1, [5; 5; 6])])]
         (BarrelManager.init 2 {[ 0 := Pickled {[ 1 := [6]; 0 := [9; 9] ]} ]} ∅))
      = (Ok old,
         set_buffer [(0, [(1, [5; 5; 6])])]
           (BarrelManager.init 2 {[ 0 := Pickled {[ 1 := [6]; 0 := [9; 9] ]} ]} ∅)) ∧
    files (BarrelManager.flush_barrels
             (set_buffer [(0, [(1, [5; 5; 6])])]
                (BarrelManager.init 2
                   {[ 0 := Pickled {[ 1 := [6]; 0 := [9; 9] ]} ]} ∅))).2 !! 0
      = Some (Pickled data') ∧
    data' !! 0 = old !! 0.
Proof.
  assert (buf_ok [(0, [(1, [5; 5; 6])])]) as Hok.
  { split; [apply (bool_decide_unpack _); by vm_compute|].
    intros b nd Hnd. apply (bool_decide_unpack _).
    apply list_elem_of_singleton in Hnd. injection Hnd as -> ->. by vm_compute. }
  assert (BarrelManager.flush_barrels
            (set_buffer [(0, [(1, [5; 5; 6])])]
               (BarrelManager.init 2
                  {[ 0 := Pickled {[ 1 := [6]; 0 := [9; 9] ]} ]} ∅))
          = (Ok (),
             (BarrelManager.flush_barrels
                (set_buffer [(0, [(1, [5; 5; 6])])]
                   (BarrelManager.init 2
                      {[ 0 := Pickled {[ 1 := [6]; 0 := [9; 9] ]} ]} ∅))).2))
    as Hflush by (by vm_compute).
  destruct (flush_barrels_content
    (set_buffer [(0, [(1, [5; 5; 6])])]
       (BarrelManager.init 2 {[ 0 := Pickled {[ 1 := [6]; 0 := [9; 9] ]} ]} ∅))
    _ 0 [(1, [5; 5; 6])] Hok Hflush eq_refl)
    as (old & data' & Hload & Hfile & Hwords).
  exists old, data'. split_and!; [exact Hload|exact Hfile|exact (Hwords 0)].
Defined.

(** X8. A flush stops at the first barrel, in buffer order, whose file cannot
    be written: the barrels before it have been flushed, the failing one is
    untouched if [open] failed and no longer unpickles if the dump failed,
    the barrels after it are untouched, and the buffer keeps everything. *)
Theorem flush_barrels_stops_at_first_unwritable
    (s : State) (pre post : dict Z (dict Z (list Z))) (b : Z)
    (new_data : dict Z (list Z)) (f : WriteFault) :
  barrels_buffer s = pre ++ (b, new_data) :: post →
  (∀ b', b' ∈ keys pre → write_faults s !! b' = None) →
  write_faults s !! b = Some f →
  ∃ s' t,
    BarrelManager.flush_barrels s = (Raise OSError, s') ∧
    barrels_buffer s' = barrels_buffer s ∧
    BarrelManager.flush_barrels (set_buffer pre s) = (Ok (), t) ∧
    files s' = match f with
               | OpenFails => files t
               | DumpFails => <[b := Corrupt]> (files t)
               end.
Proof.
  intros Hbuf Hpre Hf. do 2 eexists.
  split; [by apply (flush_barrels_fail s pre b new_data post f)|].
  split; [done|]. split; [by apply flush_barrels_ok|]. by destruct f.
Qed.

Lemma flush_barrels_stops_at_first_unwritable_witness :
  ∃ s',
    BarrelManager.flush_barrels
      (set_buffer [(0, [(1, [5])]); (1, [(2, [6])]); (2, [(4, [7])])]
         (BarrelManager.init 2 {[ 1 := Pickled {[ 2 := [9] ]} ]}
            {[ 1 := DumpFails ]}))
      = (Raise OSError, s') ∧
    files s' = {[ 0 := Pickled {[ 1 := [5] ]}; 1 := Corrupt ]}.
Proof.
  destruct (flush_barrels_stops_at_first_unwritable
    (set_buffer [(0, [(1, [5])]); (1, [(2, [6])]); (2, [(4, [7])])]
       (BarrelManager.init 2 {[ 1 := Pickled {[ 2 := [9] ]} ]}
          {[ 1 := DumpFails ]}))
    [(0, [(1, [5])])] [(2, [(4, [7])])] 1 [(2, [6])] DumpFails eq_refl)
    as (s' & t & Hrun & _ & Ht & Hfiles).
  - intros b' Hb'. apply list_elem_of_singleton in Hb'. subst b'. by vm_compute.
  - by vm_compute.
  - exists s'. split; [exact Hrun|]. rewrite Hfiles.
    vm_compute in Ht. injection Ht as <-. by vm_compute.
Defined.

Lemma buf_add_all_entry size buf ps b w :
  is_Some (dict_get b (buf_add_all size buf ps) ≫= dict_get w) ↔
  is_Some (dict_get b buf ≫= dict_get w) ∨ ∃ d, (w, d) ∈ ps ∧ b = w `div` size.
Proof.
  unfold buf_add_all. revert buf.
  induction ps as [|[w0 d0] ps IH]; intros buf.
  - simpl. split; [by left|]. intros [?|(d & Hin & _)]; [done|].
    by apply elem_of_nil in Hin.
  - cbn [foldl fst snd]. rewrite IH. unfold buf_add at 1.
    rewrite dict_get_upd.
    destruct (decide (b = w0 `div` size)) as [->|Hb]; simpl.
    + rewrite dict_get_upd. destruct (decide (w = w0)) as [->|Hw].
      * split; [|by eauto]. intros _. right. exists d0. split; [left|done].
      * split.
        -- intros [Hs|(d & Hin & Heq)].
           ++ left. by destruct (dict_get (w0 `div` size) buf).
           ++ right. exists d. split; [by right|done].
        -- intros [Hs|(d & [[= ? ?]|Hin]%elem_of_cons & Heq)]; [|done|].
           ++ left. by destruct (dict_get (w0 `div` size) buf).
           ++ right. by exists d.
    + split.
      * intros [?|(d & Hin & Heq)]; [by left|].
        right. exists d. split; [by right|done].
      * intros [?|(d & [[= -> ->]|Hin]%elem_of_cons & Heq)]; [by left|done|].
        right. by exists d.
Qed.

Lemma flush_files_entry fs buf b w :
  buf_ok buf →
  is_Some (disk_of (flush_files fs buf) b !! w) ↔
  is_Some (disk_of fs b !! w) ∨ is_Some (dict_get b buf ≫= dict_get w).
Proof.
  intros [Hwf Hinner]. rewrite flush_files_disk by done.
  destruct (dict_get b buf) as [nd|] eqn:Hb; simpl.
  - rewrite merge_loop_lookup
      by (eapply Hinner; by apply dict_get_Some_elem).
    destruct (dict_get w nd); [by split; eauto|].
    split; [by left|]. by intros [?|[? ?]].
  - split; [by left|]. by intros [?|[? ?]].
Qed.

(** X9. After a build into an empty directory, the file of barrel [b] holds
    an entry for a word exactly when the word belongs to barrel [b] and
    occurs in the forward index. *)
Theorem barrel_holds_exactly_its_words
    (forward_index : dict Z (list Z)) (size : Z) :
  size ≠ 0 →
  ∃ s',
    InvertedIndexBuilder.build_from_forward_index forward_index
      (BarrelManager.init size ∅ ∅) = (Ok (), s') ∧
    ∀ b,
      ∃ data,
        BarrelManager.load_barrel b s' = (Ok data, s') ∧
        ∀ w, is_Some (data !! w) ↔
             b = w `div` size ∧
             ∃ d word_ids, (d, word_ids) ∈ forward_index ∧ w ∈ word_ids.
Proof.
  intros Hsize. rewrite build_from_forward_index_run.
  unfold flush_pass, mbind, M_bind, bind.
  rewrite add_postings_run by done.
  rewrite flush_barrels_ok by (intros b _; apply lookup_empty).
  eexists. split; [done|]. intros b. eexists.
  split; [apply load_barrel_run|]. intros w. simpl.
  rewrite flush_files_entry by (apply buf_add_all_ok, buf_ok_nil).
  rewrite buf_add_all_entry. unfold disk_of. rewrite lookup_empty. simpl.
  rewrite lookup_empty. split.
  - intros [[? ?]|[[? ?]|(d & Hin & ->)]]; [done..|].
    split; [done|]. apply elem_of_postings_of in Hin as (ws & ? & ?).
    by exists d, ws.
  - intros [-> (d & ws & ? & ?)]. right. right. exists d.
    split; [|done]. apply elem_of_postings_of. by exists ws.
Qed.

Lemma barrel_holds_exactly_its_words_witness :
  ∃ s',
    InvertedIndexBuilder.build_from_forward_index [(0, [1; 0]); (1, [1; 2])]
      (BarrelManager.init 2 ∅ ∅) = (Ok (), s') ∧
    ∀ b,
      ∃ data,
        BarrelManager.load_barrel b s' = (Ok data, s') ∧
        ∀ w, is_Some (data !! w) ↔
             b = w `div` 2 ∧
             ∃ d word_ids, (d, word_ids) ∈ [(0, [1; 0]); (1, [1; 2])]
                           ∧ w ∈ word_ids.
Proof.
  apply (barrel_holds_exactly_its_words [(0, [1; 0]); (1, [1; 2])] 2). lia.
Defined.

Lemma elem_of_keys_get {V} (d : dict Z V) k : k ∈ keys d ↔ is_Some (dict_get k d).
Proof.
  rewrite <- not_eq_None_Some, dict_get_None. split.
  - intros Hin Hnin. by apply Hnin.
  - apply dec_stable.
Qed.

Lemma buf_add_all_keys size buf ps b :
  b ∈ keys (buf_add_all size buf ps) ↔
  b ∈ keys buf ∨ ∃ w d, (w, d) ∈ ps ∧ b = w `div` size.
Proof.
  unfold buf_add_all. revert buf.
  induction ps as [|[w0 d0] ps IH]; intros buf.
  - simpl. split; [by left|]. intros [?|(w & d & Hin & _)]; [done|].
    by apply elem_of_nil in Hin.
  - cbn [foldl fst snd]. rewrite IH, !elem_of_keys_get. unfold buf_add.
    rewrite dict_get_upd. destruct (decide (b = w0 `div` size)) as [->|Hb].
    + split; [|by eauto]. intros _. right. exists w0, d0. split; [left|done].
    + split.
      * intros [?|(w & d & Hin & Heq)]; [by left|].
        right. exists w, d. split; [by right|done].
      * intros [?|(w & d & [[= -> ->]|Hin]%elem_of_cons & Heq)];
          [by left|done|]. right. by exists w, d.
Qed.

(** X10. A build creates a barrel file exactly for the barrels of the words of
    the forward index, beside the files that were there: the directory
    holds a sparse set of barrels. *)
Theorem barrel_files_created
    (s : State) (forward_index : dict Z (list Z)) :
  barrel_size s ≠ 0 → barrels_buffer s = [] → write_faults s = ∅ →
  ∃ s',
    InvertedIndexBuilder.build_from_forward_index forward_index s = (Ok (), s') ∧
    ∀ b, is_Some (files s' !! b) ↔
         is_Some (files s !! b) ∨
         ∃ d word_ids w, (d, word_ids) ∈ forward_index ∧ w ∈ word_ids ∧
                         b = w `div` barrel_size s.
Proof.
  intros Hsize Hbuf Hwf. rewrite build_from_forward_index_run.
  unfold flush_pass, mbind, M_bind, bind.
  rewrite add_postings_run by done.
  rewrite flush_barrels_ok by (intros b _; simpl; by rewrite Hwf).
  eexists. split; [done|]. intros b. simpl. rewrite Hbuf.
  set (buf := buf_add_all _ _ _).
  assert (b ∈ keys buf ↔
          ∃ d ws w, (d, ws) ∈ forward_index ∧ w ∈ ws ∧ b = w `div` barrel_size s)
    as Hkeys.
  { unfold buf. rewrite buf_add_all_keys. split.
    - intros [Hin|(w & d & (ws & ? & ?)%elem_of_postings_of & ->)].
      + by apply elem_of_nil in Hin.
      + by exists d, ws, w.
    - intros (d & ws & w & ? & ? & ->). right. exists w, d.
      split; [|done]. apply elem_of_postings_of. by exists ws. }
  rewrite <- Hkeys. destruct (decide (b ∈ keys buf)) as [Hin|Hnin].
  - split; [by right|]. intros _.
    destruct (flush_files_pickled (files s) buf b) as [data ->]; by eauto.
  - rewrite flush_files_other by done. split; [by left|]. by intros [?|?].
Qed.

Lemma barrel_files_created_witness :
  ∃ s',
    InvertedIndexBuilder.build_from_forward_index [(0, [1; 0]); (1, [1; 5])]
      (BarrelManager.init 2 ∅ ∅) = (Ok (), s') ∧
    ∀ b, is_Some (files s' !! b) ↔
         is_Some ((∅ : gmap Z BarrelFile) !! b) ∨
         ∃ d word_ids w, (d, word_ids) ∈ [(0, [1; 0]); (1, [1; 5])] ∧
                         w ∈ word_ids ∧ b = w `div` 2.
Proof.
  apply (barrel_files_created (BarrelManager.init 2 ∅ ∅)
           [(0, [1; 0]); (1, [1; 5])]); [simpl; lia|reflexivity..].
Defined.

(** X11. Building the same forward index a second time into the same directory
    adds nothing: every lookup returns the same doc ids as after the first
    build, still without duplicates. *)
Theorem rebuild_adds_nothing (s : State) (forward_index : dict Z (list Z)) :
  barrel_size s ≠ 0 → barrels_buffer s = [] → write_faults s = ∅ →
  ∃ s1 s2,
    InvertedIndexBuilder.build_from_forward_index forward_index s = (Ok (), s1) ∧
    InvertedIndexBuilder.build_from_forward_index forward_index s1 = (Ok (), s2) ∧
    ∀ word_id,
      ∃ once twice,
        BarrelManager.get_documents_for_word word_id s1 = (Ok once, s1) ∧
        BarrelManager.get_documents_for_word word_id s2 = (Ok twice, s2) ∧
        (∀ doc_id, doc_id ∈ twice ↔ doc_id ∈ once) ∧
        (NoDup once → NoDup twice).
Proof.
  intros Hsize Hbuf Hwf.
  destruct (flush_pass_correct (postings_of forward_index) s)
    as (s1 & Hrun1 & Hsize1 & Hbuf1 & Hwf1 & Hpost1); [done..|].
  destruct (flush_pass_correct (postings_of forward_index) s1)
    as (s2 & Hrun2 & Hsize2 & Hbuf2 & Hwf2 & Hpost2); [congruence|done..|].
  exists s1, s2. rewrite !build_from_forward_index_run.
  split_and!; [done..|]. intros w. do 2 eexists. split_and!.
  - apply get_documents_for_word_run. congruence.
  - apply get_documents_for_word_run. congruence.
  - intros d. rewrite Hsize2.
    destruct (Hpost2 (w `div` barrel_size s1) w) as [-> _].
    split; [|by left]. intros [?|[Hin Hb]]; [done|].
    rewrite Hsize1. apply Hpost1. right. split; [done|]. by rewrite <- Hsize1.
  - rewrite Hsize2. apply Hpost2.
Qed.

Lemma rebuild_adds_nothing_witness :
  ∃ s1 s2,
    InvertedIndexBuilder.build_from_forward_index [(0, [1; 0]); (1, [1; 2])]
      (BarrelManager.init 2 ∅ ∅) = (Ok (), s1) ∧
    InvertedIndexBuilder.build_from_forward_index [(0, [1; 0]); (1, [1; 2])] s1
      = (Ok (), s2) ∧
    ∀ word_id,
      ∃ once twice,
        BarrelManager.get_documents_for_word word_id s1 = (Ok once, s1) ∧
        BarrelManager.get_documents_for_word word_id s2 = (Ok twice, s2) ∧
        (∀ doc_id, doc_id ∈ twice ↔ doc_id ∈ once) ∧
        (NoDup once → NoDup twice).
Proof.
  apply (rebuild_adds_nothing (BarrelManager.init 2 ∅ ∅)
           [(0, [1; 0]); (1, [1; 2])]); [simpl; lia|reflexivity..].
Defined.

(** X12. A forward index without any word id (no document, or only documents
    with an empty entry) builds successfully without writing anything,
    whatever the barrel size and even in an unwritable directory. *)
Theorem build_without_words_writes_nothing
    (s : State) (forward_index : dict Z (list Z)) :
  barrels_buffer s = [] →
  (∀ d word_ids, (d, word_ids) ∈ forward_index → word_ids = []) →
  InvertedIndexBuilder.build_from_forward_index forward_index s = (Ok (), s).
Proof.
  intros Hbuf Hempty. rewrite build_from_forward_index_run.
  assert (postings_of forward_index = []) as ->.
  { destruct (postings_of forward_index) as [|[w d] ps] eqn:Hps; [done|].
    assert ((w, d) ∈ postings_of forward_index) as Hin by (rewrite Hps; left).
    apply elem_of_postings_of in Hin as (ws & Hitem & Hw).
    rewrite (Hempty _ _ Hitem) in Hw. by apply elem_of_nil in Hw. }
  unfold flush_pass, add_postings, mbind, M_bind, bind. simpl.
  by apply flush_barrels_empty_buffer.
Qed.

Lemma build_without_words_writes_nothing_witness :
  InvertedIndexBuilder.build_from_forward_index [(0, []); (1, [])]
    (BarrelManager.init 0 ∅ {[ 0 := OpenFails ]})
  = (Ok (), BarrelManager.init 0 ∅ {[ 0 := OpenFails ]}).
Proof.
  apply (build_without_words_writes_nothing
           (BarrelManager.init 0 ∅ {[ 0 := OpenFails ]}) [(0, []); (1, [])]).
  - reflexivity.
  - intros d ws Hin.
    repeat (apply elem_of_cons in Hin as [Hin|Hin]; [by injection Hin|]).
    by apply elem_of_nil in Hin.
Defined.

(** ** Lexicon, further *)

Lemma build_lookup_cases (self : LexiconBuilder.t) documents w id :
  (LexiconBuilder.build_from_documents self documents).2 !! w = Some id →
  (∃ n : nat, vocabulary documents !! n = Some w ∧
              id = LexiconBuilder.next_word_id self + Z.of_nat n) ∨
  ((w ∉ vocabulary documents) ∧ LexiconBuilder.lexicon self !! w = Some id).
Proof.
  unfold LexiconBuilder.build_from_documents, vocabulary. simpl.
  set (words := LexiconBuilder.sorted _).
  assert (NoDup words) as Hnd by apply NoDup_sorted. intros Hl.
  destruct (decide (w ∈ words)) as [Hin|Hnin].
  - apply list_elem_of_lookup in Hin as [n Hn]. left. exists n. split; [done|].
    rewrite (assign_loop_index _ _ n) in Hl by done. congruence.
  - right. split; [done|]. by rewrite assign_loop_other in Hl.
Qed.

Lemma ids_ok_init : lexicon_ids_ok LexiconBuilder.init.
Proof. split_and!; [done| |]; simpl; intros *; by rewrite lookup_empty. Qed.

Lemma ids_ok_after_build (self : LexiconBuilder.t) (documents : list Document) :
  lexicon_ids_ok self →
  lexicon_ids_ok (LexiconBuilder.build_from_documents self documents).1.
Proof.
  intros [Hnonneg [Hbound Hinj]].
  assert (LexiconBuilder.lexicon
            (LexiconBuilder.build_from_documents self documents).1
          = (LexiconBuilder.build_from_documents self documents).2) as Hlex
    by done.
  assert (LexiconBuilder.next_word_id
            (LexiconBuilder.build_from_documents self documents).1
          = LexiconBuilder.next_word_id self
            + Z.of_nat (length (vocabulary documents))) as Hctr
    by apply assign_loop_counter.
  unfold lexicon_ids_ok. rewrite Hlex, Hctr. split_and!.
  - lia.
  - intros w id [(n & Hn & ->)|[_ Hold]]%build_lookup_cases.
    + apply lookup_lt_Some in Hn. lia.
    + apply Hbound in Hold. lia.
  - intros w1 w2 id [(n1 & Hn1 & ->)|[Hnin1 Hold1]]%build_lookup_cases
      [(n2 & Hn2 & Heq)|[Hnin2 Hold2]]%build_lookup_cases.
    + assert (n1 = n2) as -> by lia. congruence.
    + apply Hbound in Hold2. lia.
    + apply Hbound in Hold1. lia.
    + by eapply Hinj.
Qed.

Lemma ids_ok_after_builds (self : LexiconBuilder.t) (batches : list (list Document)) :
  lexicon_ids_ok self →
  lexicon_ids_ok
    (foldl (λ builder documents,
              (LexiconBuilder.build_from_documents builder documents).1)
           self batches).
Proof.
  revert self. induction batches as [|documents batches IH]; intros self Hok;
    [done|].
  cbn [foldl]. by apply IH, ids_ok_after_build.
Qed.

(** X13. [build_from_documents] keeps the invariant that makes ids usable as
    keys: every id is non-negative and below the counter, and no two words
    share an id. The invariant holds of a fresh builder, every build
    preserves it, and so it holds of a builder after any sequence of builds
    from fresh. *)
Theorem build_keeps_ids_distinct
    (self : LexiconBuilder.t) (documents : list Document)
    (batches : list (list Document)) :
  lexicon_ids_ok LexiconBuilder.init ∧
  (lexicon_ids_ok self →
   lexicon_ids_ok (LexiconBuilder.build_from_documents self documents).1) ∧
  lexicon_ids_ok
    (foldl (λ builder documents,
              (LexiconBuilder.build_from_documents builder documents).1)
           LexiconBuilder.init batches).
Proof.
  split_and!.
  - apply ids_ok_init.
  - apply ids_ok_after_build.
  - apply ids_ok_after_builds, ids_ok_init.
Qed.

Lemma build_keeps_ids_distinct_witness :
  lexicon_ids_ok
    (LexiconBuilder.build_from_documents
       (LexiconBuilder.build_from_documents LexiconBuilder.init docs_four).1
       docs_example).1.
Proof.
  refine (proj1 (proj2 (build_keeps_ids_distinct
    (LexiconBuilder.build_from_documents LexiconBuilder.init docs_four).1
    docs_example [])) _).
  split_and!.
  - by vm_compute.
  - intros w id Hl.
    destruct (decide (w = "four"%string)) as [->|Hne].
    + vm_compute in Hl. injection Hl as <-. by vm_compute.
    + exfalso. revert Hl.
      change ((<["four"%string := 0]> (∅ : gmap string Z)) !! w = Some id → False).
      by rewrite lookup_insert_ne, lookup_empty.
  - intros w1 w2 id H1 H2.
    assert (∀ w i, (LexiconBuilder.build_from_documents LexiconBuilder.init
                      docs_four).1.(LexiconBuilder.lexicon) !! w = Some i →
                   w = "four"%string) as Hone.
    { intros w i. change ((<["four"%string := 0]> (∅ : gmap string Z)) !! w
                          = Some i → w = "four"%string).
      destruct (decide (w = "four"%string)) as [->|Hne]; [done|].
      by rewrite lookup_insert_ne, lookup_empty. }
    by rewrite (Hone _ _ H1), (Hone _ _ H2).
Defined.

(** ** Forward index, further *)

Section forward_more.
Import ForwardIndexBuilder.

Lemma add_documents_entry self documents d ws :
  dict_get d (forward_index (foldl add_document self documents)) = Some ws →
  dict_get d (forward_index self) = Some ws ∨
  ∃ doc, doc ∈ documents ∧ doc_id doc = d ∧
         ws = convert_tokens (lexicon self) (get_tokens doc).
Proof.
  revert self. induction documents as [|doc0 documents IH]; intros self; [by left|].
  cbn [foldl]. intros [Hold|(doc & Hin & Hid & Hws)]%IH.
  - simpl in Hold. rewrite dict_get_set in Hold.
    destruct (decide (d = doc_id doc0)) as [->|Hne]; [|by left].
    right. exists doc0. split_and!; [left|done|congruence].
  - right. exists doc. split_and!; [by right|done..].
Qed.

Lemma add_documents_keys self documents :
  NoDup (keys (forward_index self) ++ (doc_id <$> documents)) →
  keys (forward_index (foldl add_document self documents)) =
    keys (forward_index self) ++ (doc_id <$> documents).
Proof.
  revert self. induction documents as [|doc documents IH]; intros self Hnd.
  - simpl. by rewrite app_nil_r.
  - cbn [foldl]. rewrite fmap_cons in Hnd.
    assert (doc_id doc ∉ keys (forward_index self)) as Hfresh.
    { apply NoDup_app in Hnd as (_ & Hdisj & _). intros Hin.
      apply (Hdisj _ Hin). left. }
    rewrite IH; simpl; rewrite keys_dict_set, decide_False by done.
    + by rewrite <- app_assoc.
    + by rewrite <- app_assoc.
Qed.

Lemma forward_entry_of_doc self documents doc :
  NoDup (doc_id <$> documents) → doc ∈ documents →
  dict_get (doc_id doc) (forward_index (foldl add_document self documents)) =
    Some (convert_tokens (lexicon self) (get_tokens doc)).
Proof.
  intros Hnd (before & after & ->)%list_elem_of_split.
  apply add_documents_last. intros doc' Hin Heq.
  rewrite fmap_app, fmap_cons in Hnd.
  apply NoDup_app in Hnd as (_ & _ & Hnd). apply NoDup_cons in Hnd as [Hnin _].
  apply Hnin. rewrite <- Heq. apply list_elem_of_fmap. by exists doc'.
Qed.
End forward_more.

(** X15. Every word id that a build puts into the entry of a doc id is the
    lexicon id of a token of a document carrying that doc id; an entry that
    no document of the call carries is the one the builder had before. *)
Theorem forward_entry_ids_from_lexicon
    (self : ForwardIndexBuilder.t) (documents : list Document) (d w : Z) :
  w ∈ ForwardIndexBuilder.get_document_words
        (ForwardIndexBuilder.build_from_documents self documents).1 d →
  w ∈ ForwardIndexBuilder.get_document_words self d ∨
  ∃ doc token,
    doc ∈ documents ∧ doc_id doc = d ∧ token ∈ get_tokens doc ∧
    ForwardIndexBuilder.lexicon self !! token = Some w.
Proof.
  unfold ForwardIndexBuilder.get_document_words,
    ForwardIndexBuilder.build_from_documents. simpl.
  destruct (dict_get d (ForwardIndexBuilder.forward_index
                          (foldl ForwardIndexBuilder.add_document self documents)))
    as [ws|] eqn:Hd; simpl; [|intros Hw; by apply elem_of_nil in Hw].
  intros Hw. apply add_documents_entry in Hd as [->|(doc & Hin & Hid & ->)];
    [by left|].
  right. rewrite convert_tokens_omap in Hw.
  apply list_elem_of_omap in Hw as (token & Htok & Hlex). by exists doc, token.
Qed.

Lemma forward_entry_ids_from_lexicon_witness :
  1 ∈ ForwardIndexBuilder.get_document_words
        (ForwardIndexBuilder.init (fresh_lexicon docs_example)) 0 ∨
  ∃ doc token,
    doc ∈ docs_example ∧ doc_id doc = 0 ∧ token ∈ get_tokens doc ∧
    ForwardIndexBuilder.lexicon
      (ForwardIndexBuilder.init (fresh_lexicon docs_example)) !! token = Some 1.
Proof.
  apply (forward_entry_ids_from_lexicon
           (ForwardIndexBuilder.init (fresh_lexicon docs_example))
           docs_example 0 1).
  vm_compute. left.
Defined.

(** X16. With pairwise distinct doc ids, a fresh builder's index lists the doc
    ids in document order, one entry per document, and returns the empty
    list for a doc id that no document carries. *)
Theorem forward_index_keys (lexicon : gmap string Z) (documents : list Document) :
  NoDup (doc_id <$> documents) →
  keys (ForwardIndexBuilder.build_from_documents
          (ForwardIndexBuilder.init lexicon) documents).2
    = doc_id <$> documents ∧
  length (ForwardIndexBuilder.build_from_documents
            (ForwardIndexBuilder.init lexicon) documents).2
    = length documents ∧
  ∀ d, d ∉ doc_id <$> documents →
       ForwardIndexBuilder.get_document_words
         (ForwardIndexBuilder.build_from_documents
            (ForwardIndexBuilder.init lexicon) documents).1 d = [].
Proof.
  intros Hnd.
  assert (keys (ForwardIndexBuilder.build_from_documents
                  (ForwardIndexBuilder.init lexicon) documents).2
          = doc_id <$> documents) as Hkeys.
  { unfold ForwardIndexBuilder.build_from_documents. simpl.
    by rewrite add_documents_keys. }
  split_and!; [done| |].
  - rewrite <- (length_fmap fst), <- (length_fmap doc_id). by f_equal.
  - intros d Hd. unfold ForwardIndexBuilder.get_document_words.
    rewrite <- Hkeys in Hd. apply dict_get_None in Hd.
    unfold ForwardIndexBuilder.build_from_documents in *. simpl in *.
    by rewrite Hd.
Qed.

Lemma forward_index_keys_witness :
  keys (ForwardIndexBuilder.build_from_documents
          (ForwardIndexBuilder.init (fresh_lexicon docs_example)) docs_example).2
    = [0; 1; 2].
Proof.
  refine (proj1 (forward_index_keys (fresh_lexicon docs_example) docs_example _)).
  apply (bool_decide_unpack _). by vm_compute.
Defined.

(** ** The pipeline as a whole *)

Lemma fresh_lexicon_covers documents doc token :
  doc ∈ documents → token ∈ get_tokens doc →
  is_Some (fresh_lexicon documents !! token).
Proof.
  intros Hdoc Htok.
  assert (token ∈ vocabulary documents) as Hin.
  { unfold vocabulary. rewrite elem_of_sorted, elem_of_collect_unique_words.
    by exists doc. }
  apply list_elem_of_lookup in Hin as [n Hn]. exists (Z.of_nat n).
  apply fresh_lexicon_rank. by exists n.
Qed.

Lemma fresh_lexicon_inj documents w1 w2 id :
  fresh_lexicon documents !! w1 = Some id →
  fresh_lexicon documents !! w2 = Some id → w1 = w2.
Proof.
  intros (n1 & -> & H1)%fresh_lexicon_rank (n2 & Heq & H2)%fresh_lexicon_rank.
  assert (n1 = n2) as -> by lia. congruence.
Qed.

Lemma omap_total {A B} (f : A → option B) (l : list A) :
  (∀ x, x ∈ l → is_Some (f x)) → Forall2 (λ x y, f x = Some y) l (omap f l).
Proof.
  induction l as [|x l IH]; intros Hall; [constructor|].
  destruct (Hall x) as [y Hy]; [left|]. cbn [omap list_omap]. rewrite Hy.
  constructor; [done|]. apply IH. intros x' Hx'. apply Hall. by right.
Qed.

(** X17. In the pipeline the lexicon is built from the documents that are then
    indexed, so no token is dropped: with pairwise distinct doc ids, the
    entry of every document has one id per token, position by position the
    lexicon id of the token. *)
Theorem pipeline_drops_no_token (documents : list Document) (doc : Document) :
  NoDup (doc_id <$> documents) → doc ∈ documents →
  Forall2 (λ token id, fresh_lexicon documents !! token = Some id)
    (get_tokens doc)
    (ForwardIndexBuilder.get_document_words
       (ForwardIndexBuilder.build_from_documents
          (ForwardIndexBuilder.init (fresh_lexicon documents)) documents).1
       (doc_id doc)).
Proof.
  intros Hnd Hdoc. unfold ForwardIndexBuilder.get_document_words,
    ForwardIndexBuilder.build_from_documents. simpl.
  rewrite forward_entry_of_doc by done. simpl.
  rewrite convert_tokens_omap. apply omap_total.
  intros token Htok. by eapply fresh_lexicon_covers.
Qed.

Lemma pipeline_drops_no_token_witness :
  Forall2 (λ token id, fresh_lexicon docs_example !! token = Some id)
    ["six"; "wicket"]%string
    (ForwardIndexBuilder.get_document_words
       (ForwardIndexBuilder.build_from_documents
          (ForwardIndexBuilder.init (fresh_lexicon docs_example)) docs_example).1
       1).
Proof.
  refine (pipeline_drops_no_token docs_example
            {| doc_id := 1; tokens := Some ["six"; "wicket"]%string |} _ _).
  - apply (bool_decide_unpack _). by vm_compute.
  - right. left.
Defined.

(** X18. The pipeline end to end, into an empty directory with a non-zero barrel
    size and pairwise distinct doc ids: it succeeds, and looking up the id
    of a word of the lexicon returns exactly the doc ids of the documents
    that contain the word, each once. *)
Theorem search_finds_exactly_the_documents_with_the_word
    (documents : list Document) (size : Z) (token : string) (id : Z) :
  size ≠ 0 → NoDup (doc_id <$> documents) →
  (build_indices documents size ∅ ∅).1.1 !! token = Some id →
  ∃ s' doc_ids,
    (build_indices documents size ∅ ∅).2 = (Ok (), s') ∧
    BarrelManager.get_documents_for_word id s' = (Ok doc_ids, s') ∧
    NoDup doc_ids ∧
    ∀ d, d ∈ doc_ids ↔
         ∃ doc, doc ∈ documents ∧ doc_id doc = d ∧ token ∈ get_tokens doc.
Proof.
  intros Hsize Hnd Hid. unfold build_indices in *. cbn [fst snd] in *.
  fold (fresh_lexicon documents) in *.
  set (builder := ForwardIndexBuilder.build_from_documents _ _).
  destruct (inverted_index_of_forward_index builder.2 size)
    as (s' & Hrun & Hdocs); [done| |].
  { apply add_documents_wf. apply NoDup_nil_2. }
  destruct (Hdocs id 0) as (doc_ids & Hget & Hnodup & _).
  exists s', doc_ids. split_and!; [done..|]. intros d.
  destruct (Hdocs id d) as (doc_ids' & Hget' & _ & Hiff).
  assert (doc_ids' = doc_ids) as -> by congruence.
  rewrite <- Hiff. unfold builder, ForwardIndexBuilder.build_from_documents.
  simpl. split.
  - destruct (dict_get d _) as [ws|] eqn:Hd; simpl;
      [|intros Hw; by apply elem_of_nil in Hw].
    apply add_documents_entry in Hd as [Hd|(doc & Hin & Hdid & ->)]; [done|].
    rewrite convert_tokens_omap. intros (t & Ht & Hlex)%list_elem_of_omap.
    simpl in Hlex. exists doc. split_and!; [done..|].
    by rewrite (fresh_lexicon_inj _ _ _ _ Hid Hlex).
  - intros (doc & Hin & <- & Htok).
    rewrite forward_entry_of_doc by done. simpl.
    rewrite convert_tokens_omap. apply list_elem_of_omap. by exists token.
Qed.

Lemma search_finds_exactly_the_documents_with_the_word_witness :
  ∃ s' doc_ids,
    (build_indices docs_example 2 ∅ ∅).2 = (Ok (), s') ∧
    BarrelManager.get_documents_for_word 1 s' = (Ok doc_ids, s') ∧
    NoDup doc_ids ∧
    ∀ d, d ∈ doc_ids ↔
         ∃ doc, doc ∈ docs_example ∧ doc_id doc = d ∧
                "six"%string ∈ get_tokens doc.
Proof.
  apply (search_finds_exactly_the_documents_with_the_word
           docs_example 2 "six"%string 1).
  - lia.
  - apply (bool_decide_unpack _). by vm_compute.
  - by vm_compute.
Defined.

(** ** Persistence of the lexicon *)

Lemma assign_loop_size (self : LexiconBuilder.t) (words : list string) :
  NoDup words →
  (∀ w, w ∈ words → LexiconBuilder.lexicon self !! w = None) →
  size (LexiconBuilder.lexicon (foldl LexiconBuilder.assign self words)) =
    (size (LexiconBuilder.lexicon self) + length words)%nat.
Proof.
  revert self. induction words as [|w words IH]; intros self Hnd Hfresh.
  - simpl. lia.
  - apply NoDup_cons in Hnd as [Hnin Hnd]. cbn [foldl]. rewrite IH; [|done|].
    + simpl. rewrite map_size_insert_None by (apply Hfresh; left). lia.
    + intros w' Hw'. simpl. rewrite lookup_insert_ne by (by intros ->).
      apply Hfresh. by right.
Qed.

(** X14. A builder that has built once from fresh, saved to a writable path and
    loaded into any builder, is restored exactly: the mapping, and the
    counter, which [load_from_file] recomputes as the number of entries.
    The save touches no other path. *)
Theorem lexicon_save_load_restores_builder
    (documents : list Document) (other : LexiconBuilder.t)
    (filepath : string) (disk : LexiconDisk) :
  lexicon_faults disk !! filepath = None →
  ∃ disk',
    LexiconFiles.save_to_file
      (LexiconBuilder.build_from_documents LexiconBuilder.init documents).1
      filepath disk = (Ok (), disk') ∧
    LexiconFiles.load_from_file other filepath disk' =
      (Ok (LexiconBuilder.build_from_documents LexiconBuilder.init documents).2,
       (LexiconBuilder.build_from_documents LexiconBuilder.init documents).1) ∧
    ∀ p, p ≠ filepath → lexicon_files disk' !! p = lexicon_files disk !! p.
Proof.
  intros Hok. unfold LexiconFiles.save_to_file. rewrite Hok.
  eexists. split; [done|]. split.
  - unfold LexiconFiles.load_from_file. simpl. rewrite lookup_insert_eq.
    f_equal. unfold LexiconBuilder.build_from_documents.
    set (words := LexiconBuilder.sorted _). simpl.
    assert (size (LexiconBuilder.lexicon
                    (foldl LexiconBuilder.assign LexiconBuilder.init words))
            = length words) as Hsize.
    { rewrite assign_loop_size; [done|apply NoDup_sorted|].
      intros w _. apply lookup_empty. }
    pose proof (assign_loop_counter LexiconBuilder.init words) as Hctr.
    destruct (foldl LexiconBuilder.assign LexiconBuilder.init words) as [lex ctr].
    cbn [LexiconBuilder.lexicon LexiconBuilder.next_word_id LexiconBuilder.init]
      in *.
    f_equal. lia.
  - intros p Hp. simpl. by rewrite lookup_insert_ne.
Qed.

Lemma lexicon_save_load_restores_builder_witness :
  ∃ disk',
    LexiconFiles.save_to_file
      (LexiconBuilder.build_from_documents LexiconBuilder.init docs_example).1
      "lexicon.pkl"%string {| lexicon_files := ∅; lexicon_faults := ∅ |}
      = (Ok (), disk') ∧
    LexiconFiles.load_from_file LexiconBuilder.init "lexicon.pkl"%string disk' =
      (Ok (LexiconBuilder.build_from_documents LexiconBuilder.init docs_example).2,
       (LexiconBuilder.build_from_documents LexiconBuilder.init docs_example).1) ∧
    ∀ p, p ≠ "lexicon.pkl"%string →
         lexicon_files disk' !! p = (∅ : gmap string LexiconFile) !! p.
Proof.
  apply (lexicon_save_load_restores_builder docs_example LexiconBuilder.init
           "lexicon.pkl"%string {| lexicon_files := ∅; lexicon_faults := ∅ |}).
  by vm_compute.
Defined.

(** ** Text preprocessing *)

Section text_facts.
Import TextPreprocessor.

Lemma string_app_cons (x : ascii) (a b : string) :
  String x a +:+ b = String x (a +:+ b).
Proof. reflexivity. Qed.

Lemma string_app_nil_r (s : string) : s +:+ "" = s.
Proof.
  induction s as [|c s IH]; [done|]. by rewrite string_app_cons, IH.
Qed.

Lemma string_app_assoc (a b c : string) : (a +:+ b) +:+ c = a +:+ (b +:+ c).
Proof.
  induction a as [|x a IH]; [done|]. by rewrite !string_app_cons, IH.
Qed.

Lemma chars_app (a b : string) : chars (a +:+ b) = chars a ++ chars b.
Proof.
  unfold chars. induction a as [|x a IH]; [done|].
  rewrite string_app_cons. cbn. by rewrite IH.
Qed.

Lemma chars_map f (s : string) : chars (map_chars f s) = f <$> chars s.
Proof. unfold chars. induction s as [|x s IH]; [done|]. cbn. by rewrite IH. Qed.

Lemma chars_nil (s : string) : chars s = [] → s = "".
Proof. by destruct s. Qed.

Lemma map_chars_id f (s : string) :
  (∀ c, c ∈ chars s → f c = c) → map_chars f s = s.
Proof.
  induction s as [|x s IH]; intros Hid; [done|]. cbn.
  rewrite Hid by left. rewrite IH; [done|]. intros c Hc. apply Hid. by right.
Qed.

Lemma split_go_words (s word : string) :
  (∀ c, c ∈ chars word → is_space c = false) →
  Forall (λ w, word_ok w ∧ ∀ c, c ∈ chars w → c ∈ chars word ∨ c ∈ chars s)
         (split_go word s).
Proof.
  revert word. induction s as [|x s IH]; intros word Hword.
  - destruct word as [|y word]; cbn; [constructor|].
    constructor; [|constructor]. split; [by split|]. by left.
  - cbn [split_go]. destruct (is_space x) eqn:Hx.
    + assert (Forall (λ w, word_ok w ∧
                ∀ c, c ∈ chars w → c ∈ chars word ∨ c ∈ chars (String x s))
                (split_go "" s)) as Hrest.
      { eapply Forall_impl; [apply (IH "")|].
        - intros c Hc. by apply elem_of_nil in Hc.
        - intros w [Hok Hsub]. split; [done|]. intros c Hc.
          destruct (Hsub c Hc) as [Hin|Hin]; [by apply elem_of_nil in Hin|].
          right. by right. }
      destruct word as [|y word]; [done|].
      constructor; [|done]. split; [by split|]. by left.
    + eapply Forall_impl; [apply (IH (word +:+ String x ""))|].
      * intros c. rewrite chars_app. intros [Hc|Hc]%elem_of_app; [by apply Hword|].
        apply list_elem_of_singleton in Hc. by subst.
      * intros w [Hok Hsub]. split; [done|]. intros c Hc.
        destruct (Hsub c Hc) as [Hin|Hin]; [|right; by right].
        rewrite chars_app in Hin. apply elem_of_app in Hin as [?|Hin]; [by left|].
        apply list_elem_of_singleton in Hin. subst. right. left.
Qed.

Lemma split_words (s : string) :
  Forall (λ w, word_ok w ∧ ∀ c, c ∈ chars w → c ∈ chars s) (split s).
Proof.
  eapply Forall_impl; [apply (split_go_words s "")|].
  - intros c Hc. by apply elem_of_nil in Hc.
  - intros w [Hok Hsub]. split; [done|]. intros c Hc.
    destruct (Hsub c Hc) as [Hin|Hin]; [by apply elem_of_nil in Hin|done].
Qed.

Lemma split_go_app (word w rest : string) :
  (∀ c, c ∈ chars w → is_space c = false) →
  split_go word (w +:+ rest) = split_go (word +:+ w) rest.
Proof.
  revert word. induction w as [|x w IH]; intros word Hw.
  - by rewrite string_app_nil_r.
  - rewrite string_app_cons. cbn [split_go]. rewrite (Hw x) by left.
    rewrite IH by (intros c Hc; apply Hw; by right).
    by rewrite string_app_assoc.
Qed.

Lemma split_go_end (word : string) : word ≠ "" → split_go word "" = [word].
Proof. by destruct word. Qed.

Lemma split_go_space (word rest : string) :
  word ≠ "" → split_go word (" " +:+ rest) = word :: split_go "" rest.
Proof. by destruct word. Qed.

Lemma join_cons (w w' : string) (ws : list string) :
  join (w :: w' :: ws) = w +:+ " " +:+ join (w' :: ws).
Proof. reflexivity. Qed.

(** Splitting the join of words gives the words back. *)
Lemma split_join (ws : list string) : Forall word_ok ws → split (join ws) = ws.
Proof.
  induction 1 as [|w ws [Hne Hw] Hws IH]; [done|].
  destruct ws as [|w' ws].
  - unfold split, join. cbn [String.concat].
    rewrite <- (string_app_nil_r w) at 1.
    rewrite split_go_app by done. by apply split_go_end.
  - rewrite join_cons. unfold split in *. rewrite split_go_app by done.
    change ("" +:+ w) with w. rewrite split_go_space by done. by rewrite IH.
Qed.

Lemma chars_join (ws : list string) c :
  c ∈ chars (join ws) → c = " "%char ∨ ∃ w, w ∈ ws ∧ c ∈ chars w.
Proof.
  unfold join. induction ws as [|w ws IH]; [intros Hc; by apply elem_of_nil in Hc|].
  destruct ws as [|w' ws].
  - intros Hc. right. exists w. split; [left|done].
  - fold (join (w :: w' :: ws)). rewrite join_cons, !chars_app.
    fold (join (w' :: ws)) in IH.
    intros [Hc|[Hc|Hc]%elem_of_app]%elem_of_app.
    + right. exists w. split; [left|done].
    + left. by apply list_elem_of_singleton in Hc.
    + destruct (IH Hc) as [?|(w0 & Hin & ?)]; [by left|].
      right. exists w0. split; [by right|done].
Qed.

Lemma lower_char_kept c : is_kept c = true → lower_char c = c.
Proof.
  unfold is_kept, lower_char. intros Hk.
  destruct ((65 <=? code c)%N && (code c <=? 90)%N) eqn:Hup; [|done].
  rewrite orb_true_iff, !andb_true_iff, !N.leb_le in Hk.
  rewrite andb_true_iff, !N.leb_le in Hup. lia.
Qed.

Lemma lower_char_space c : is_space c = true → lower_char c = c.
Proof.
  unfold is_space, lower_char. intros Hk.
  destruct ((65 <=? code c)%N && (code c <=? 90)%N) eqn:Hup; [|done].
  rewrite orb_true_iff, !andb_true_iff, !N.leb_le in Hk.
  rewrite andb_true_iff, !N.leb_le in Hup. lia.
Qed.

Lemma sub_char_not_space c : is_space (sub_char c) = false → is_kept c = true.
Proof.
  unfold sub_char. destruct (is_kept c); [done|]. simpl.
  destruct (is_space c) eqn:Hs; [congruence|done].
Qed.

Lemma sub_char_fixed c : is_kept c || is_space c = true → sub_char c = c.
Proof. unfold sub_char. by intros ->. Qed.

Lemma clean_words_ok text :
  Forall (λ w, word_ok w ∧
            ∀ c, c ∈ chars w →
                 is_kept c = true ∧ ∃ c0, c0 ∈ chars text ∧ c = lower_char c0)
         (clean_words text).
Proof.
  eapply Forall_impl; [apply split_words|].
  intros w [Hok Hsub]. split; [done|]. intros c Hc.
  pose proof (proj2 Hok c Hc) as Hns.
  apply Hsub in Hc. rewrite !chars_map in Hc.
  apply list_elem_of_fmap in Hc as (c1 & -> & Hc1).
  apply list_elem_of_fmap in Hc1 as (c0 & -> & Hc0).
  pose proof (sub_char_not_space _ Hns) as Hk.
  rewrite sub_char_fixed by (by rewrite Hk). split; [done|]. by exists c0.
Qed.

Lemma clean_text_join text : clean_text text = join (clean_words text).
Proof.
  unfold clean_text, clean_words. destruct (decide (text = "")) as [->|]; done.
Qed.

Lemma split_clean_text text : split (clean_text text) = clean_words text.
Proof.
  rewrite clean_text_join. apply split_join.
  eapply Forall_impl; [apply clean_words_ok|]. by intros w [? _].
Qed.

Lemma tokenize_eq self text :
  tokenize self text =
    filter (λ word, (1 < String.length word)%nat)
      (if remove_stopwords self
       then filter (λ word, word ∉ stopwords self) (clean_words text)
       else clean_words text).
Proof.
  unfold tokenize. rewrite split_clean_text.
  destruct (decide (clean_text text = "")) as [Hempty|]; [|done].
  assert (clean_words text = []) as ->; [|by destruct (remove_stopwords self)].
  by rewrite <- split_clean_text, Hempty.
Qed.
End text_facts.

(** X19. On ASCII text, every token has at least two characters, all of them
    lower-case letters or digits, each the lower-case form of a character of
    the text; with stop-word removal on, no token is a stop word. *)
Theorem tokens_are_lowercase_alphanumeric
    (self : TextPreprocessor.t) (text token : string) :
  is_ascii text →
  token ∈ TextPreprocessor.preprocess self text →
  (2 ≤ String.length token)%nat ∧
  (∀ c, c ∈ chars token →
        TextPreprocessor.is_kept c = true ∧
        ∃ c0, c0 ∈ chars text ∧ c = TextPreprocessor.lower_char c0) ∧
  (TextPreprocessor.remove_stopwords self = true →
   token ∉ TextPreprocessor.stopwords self).
Proof.
  intros _. unfold TextPreprocessor.preprocess. rewrite tokenize_eq.
  intros [Hlen Hin]%list_elem_of_filter.
  assert (token ∈ clean_words text ∧
          (TextPreprocessor.remove_stopwords self = true →
           token ∉ TextPreprocessor.stopwords self)) as [Hword Hstop].
  { destruct (TextPreprocessor.remove_stopwords self); [|done].
    apply list_elem_of_filter in Hin as [? ?]. done. }
  split_and!; [lia| |done].
  pose proof (clean_words_ok text) as Hok. rewrite Forall_forall in Hok.
  by apply Hok.
Qed.

Lemma tokens_are_lowercase_alphanumeric_witness :
  (2 ≤ String.length "dhoni")%nat ∧
  (∀ c, c ∈ chars "dhoni" →
        TextPreprocessor.is_kept c = true ∧
        ∃ c0, c0 ∈ chars "MS Dhoni's winning six" ∧
              c = TextPreprocessor.lower_char c0) ∧
  (TextPreprocessor.remove_stopwords (TextPreprocessor.init true) = true →
   "dhoni"%string ∉ TextPreprocessor.stopwords (TextPreprocessor.init true)).
Proof.
  apply (tokens_are_lowercase_alphanumeric (TextPreprocessor.init true)
           "MS Dhoni's winning six" "dhoni").
  - intros c Hc. revert c Hc. apply Forall_forall, (bool_decide_unpack _).
    by vm_compute.
  - apply (bool_decide_unpack _). by vm_compute.
Defined.

(** X20. Stop-word removal only removes: the tokens with removal on are the
    tokens with removal off that are not stop words, in the same order. *)
Theorem stopword_removal_only_filters
    (stopwords : gset string) (text : string) :
  is_ascii text →
  TextPreprocessor.tokenize
    {| TextPreprocessor.remove_stopwords := true;
       TextPreprocessor.stopwords := stopwords |} text =
  filter (λ word, word ∉ stopwords)
    (TextPreprocessor.tokenize
       {| TextPreprocessor.remove_stopwords := false;
          TextPreprocessor.stopwords := stopwords |} text).
Proof.
  intros _. rewrite !tokenize_eq. simpl.
  induction (clean_words text) as [|w ws IH]; [done|].
  rewrite !filter_cons.
  destruct (decide (w ∉ stopwords)), (decide (1 < String.length w)%nat);
    rewrite ?filter_cons, ?decide_True, ?decide_False by done; by rewrite IH.
Qed.

Lemma stopword_removal_only_filters_witness :
  TextPreprocessor.tokenize (TextPreprocessor.init true) "The six was hit" =
  filter (λ word, word ∉ TextPreprocessor.stopwords (TextPreprocessor.init true))
    (TextPreprocessor.tokenize (TextPreprocessor.init false) "The six was hit").
Proof.
  apply (stopword_removal_only_filters
           (TextPreprocessor.stopwords (TextPreprocessor.init true))
           "The six was hit").
  intros c Hc. revert c Hc. apply Forall_forall, (bool_decide_unpack _).
  by vm_compute.
Defined.

(** X21. Cleaning is idempotent on ASCII text, and tokenizing the cleaned text
    gives the tokens of the text. *)
Theorem clean_text_idempotent (self : TextPreprocessor.t) (text : string) :
  is_ascii text →
  TextPreprocessor.clean_text (TextPreprocessor.clean_text text) =
    TextPreprocessor.clean_text text ∧
  TextPreprocessor.tokenize self (TextPreprocessor.clean_text text) =
    TextPreprocessor.tokenize self text.
Proof.
  intros _.
  assert (clean_words (TextPreprocessor.clean_text text) = clean_words text)
    as Hwords.
  { rewrite <- (split_clean_text text). unfold clean_words. f_equal.
    pose proof (clean_words_ok text) as Hok. rewrite Forall_forall in Hok.
    assert (∀ c, c ∈ chars (TextPreprocessor.clean_text text) →
                 TextPreprocessor.is_kept c = true ∨ c = " "%char) as Hchars.
    { intros c. rewrite clean_text_join.
      intros [->|(w & Hw & Hc)]%chars_join; [by right|].
      left. by apply (Hok w Hw). }
    rewrite (map_chars_id TextPreprocessor.lower_char).
    - apply map_chars_id. intros c [Hk| ->]%Hchars; [|done].
      apply sub_char_fixed. by rewrite Hk.
    - intros c [Hk| ->]%Hchars; [by apply lower_char_kept|done]. }
  split.
  - by rewrite (clean_text_join (TextPreprocessor.clean_text text)), Hwords,
      <- clean_text_join.
  - by rewrite !tokenize_eq, Hwords.
Qed.

Lemma clean_text_idempotent_witness :
  TextPreprocessor.clean_text
    (TextPreprocessor.clean_text "  Virat Kohli scored 100 runs! ") =
    TextPreprocessor.clean_text "  Virat Kohli scored 100 runs! ".
Proof.
  refine (proj1 (clean_text_idempotent (TextPreprocessor.init false)
                   "  Virat Kohli scored 100 runs! " _)).
  intros c Hc. revert c Hc. apply Forall_forall, (bool_decide_unpack _).
  by vm_compute.
Defined.

(** X22. Tokenizing ignores letter case: two ASCII texts with the same
    lower-case form have the same cleaned text and the same tokens. *)
Theorem tokenize_ignores_case (self : TextPreprocessor.t) (text1 text2 : string) :
  is_ascii text1 → is_ascii text2 →
  TextPreprocessor.map_chars TextPreprocessor.lower_char text1 =
    TextPreprocessor.map_chars TextPreprocessor.lower_char text2 →
  TextPreprocessor.clean_text text1 = TextPreprocessor.clean_text text2 ∧
  TextPreprocessor.tokenize self text1 = TextPreprocessor.tokenize self text2.
Proof.
  intros _ _ Hlower.
  assert (clean_words text1 = clean_words text2) as Hwords
    by (unfold clean_words; by rewrite Hlower).
  split.
  - by rewrite !clean_text_join, Hwords.
  - by rewrite !tokenize_eq, Hwords.
Qed.

Lemma tokenize_ignores_case_witness :
  TextPreprocessor.tokenize (TextPreprocessor.init false) "MS Dhoni" =
  TextPreprocessor.tokenize (TextPreprocessor.init false) "ms DHONI".
Proof.
  refine (proj2 (tokenize_ignores_case (TextPreprocessor.init false)
                   "MS Dhoni" "ms DHONI" _ _ _)).
  - intros c Hc. revert c Hc. apply Forall_forall, (bool_decide_unpack _).
    by vm_compute.
  - intros c Hc. revert c Hc. apply Forall_forall, (bool_decide_unpack _).
    by vm_compute.
  - by vm_compute.
Defined.

(** X23. A text without any letter or digit, the empty text included, cleans to
    the empty string and has no tokens. *)
Theorem text_without_alphanumerics_has_no_tokens
    (self : TextPreprocessor.t) (text : string) :
  is_ascii text →
  (∀ c, c ∈ chars text →
        TextPreprocessor.is_kept (TextPreprocessor.lower_char c) = false) →
  TextPreprocessor.clean_text text = EmptyString ∧
  TextPreprocessor.tokenize self text = [].
Proof.
  intros _ Hnone.
  assert (clean_words text = []) as Hwords.
  { pose proof (clean_words_ok text) as Hok.
    destruct (clean_words text) as [|w ws]; [done|].
    apply Forall_cons in Hok as [[[Hne _] Hchars] _].
    destruct w as [|c w]; [done|].
    destruct (Hchars c) as [Hk (c0 & Hc0 & ->)]; [left|].
    rewrite Hnone in Hk by done. done. }
  split.
  - by rewrite clean_text_join, Hwords.
  - rewrite tokenize_eq, Hwords. by destruct (TextPreprocessor.remove_stopwords self).
Qed.

Lemma text_without_alphanumerics_has_no_tokens_witness :
  TextPreprocessor.clean_text " !?  -- " = EmptyString ∧
  TextPreprocessor.tokenize (TextPreprocessor.init false) " !?  -- " = [].
Proof.
  apply (text_without_alphanumerics_has_no_tokens (TextPreprocessor.init false)
           " !?  -- ").
  - intros c Hc. revert c Hc. apply Forall_forall, (bool_decide_unpack _).
    by vm_compute.
  - intros c Hc. revert c Hc. apply Forall_forall, (bool_decide_unpack _).
    by vm_compute.
Defined.
